(** * converge: the template preprocessor and the user.user preparer

    A shallow embedding of [render/preprocessor/preprocessor.go] (reference
    splitting, scope-aware traversal, desugaring, reflective field access and
    the field-map cache) and of the [Prepare] method of the [user.user]
    resource, with the properties stated about them. *)

From Stdlib Require Import NArith Ascii String DecimalString.
From stdpp Require Import gmap strings list fin_maps.

(** ** Outcomes of Go calls

    A Go call returns normally, returns a non-nil [error], or panics at run
    time (a slice bound out of range, a [reflect] method on the wrong kind).
    The errors the embedded functions make are told apart by constructor; the
    comment of each gives the text of the Go error. *)

Inductive error : Type :=
  (* [ErrUnresolvable], the sentinel made by [errors.New] *)
  | ErrUnresolvable
  (* DesugarCall: syntax error call to non-existant dependency *)
  | ErrNonExistentDependency
  (* the renderer's MissingVertex(path): the reference resolves to no vertex *)
  | ErrMissingVertex (path : string)
  (* ListFields: element is %s, not a struct *)
  | ErrNotAStruct (ty : string)
  (* EvalTerms: %T has no defined field named %s: should be one of: %v *)
  | ErrNoDefinedField (ty term : string) (valid : list string)
  (* fieldMap: cannot access fields of non-struct type %T *)
  | ErrNonStructType (ty : string)
  (* LookupCanonicalFieldName: %s has no field that matches %s, should be one of %v *)
  | ErrNoMatchingField (ty term : string) (valid : list string)
  (* user.Prepare: user uid parameter out of range *)
  | ErrUIDOutOfRange
  (* user.Prepare: user gid parameter out of range *)
  | ErrGIDOutOfRange
  (* user.Prepare: user home_dir parameter required with move_dir parameter *)
  | ErrHomeDirRequired.

Inductive outcome (A : Type) : Type :=
  | Ok (a : A)
  | Err (e : error)
  | Panic.
Arguments Ok {A} a.
Arguments Err {A} e.
Arguments Panic {A}.

Definition obind {A B} (m : outcome A) (k : A → outcome B) : outcome B :=
  match m with
  | Ok a => k a
  | Err e => Err e
  | Panic => Panic
  end.

Notation "x ←? m ; k" := (obind m (λ x, k))
  (at level 20, m at level 100, k at level 200, only parsing).
Notation "' p ←? m ; k" := (obind m (λ x, match x with p => k end))
  (at level 20, p pattern, m at level 100, k at level 200, only parsing).

(** ** The Go [strings] functions the source calls *)

Module GoStrings.

(** [strings.Split(s, sep)] for a one-byte separator: the pieces of [s]
    between the separators; never empty: the empty string splits into one
    empty piece. *)
Fixpoint Split (sep : ascii) (s : string) : list string :=
  match s with
  | EmptyString => [EmptyString]
  | String c s' =>
      if Ascii.eqb c sep then EmptyString :: Split sep s'
      else match Split sep s' with
           | h :: t => String c h :: t
           | [] => [String c EmptyString]
           end
  end.

(** [strings.Join(l, sep)]. *)
Fixpoint Join (sep : string) (l : list string) : string :=
  match l with
  | [] => EmptyString
  | x :: rest =>
      match rest with
      | [] => x
      | _ :: _ => x +:+ sep +:+ Join sep rest
      end
  end.

(** One byte of [strings.ToLower], on ASCII. *)
Definition lower_byte (c : ascii) : ascii :=
  let n := nat_of_ascii c in
  if (65 <=? n)%nat && (n <=? 90)%nat then ascii_of_nat (n + 32) else c.

Fixpoint ToLower (s : string) : string :=
  match s with
  | EmptyString => EmptyString
  | String c s' => String (lower_byte c) (ToLower s')
  end.

(** [s[n:]]: the bytes of [s] from index [n]; a run-time panic when [n]
    exceeds [len(s)]. *)
Fixpoint drop_bytes (n : nat) (s : string) : string :=
  match n, s with
  | O, _ => s
  | S n', String _ s' => drop_bytes n' s'
  | S _, EmptyString => EmptyString
  end.

Definition slice_from (s : string) (n : nat) : outcome string :=
  if (n <=? String.length s)%nat then Ok (drop_bytes n s) else Panic.

(** [fmt.Sprintf] with the verb [%q], that is [strconv.Quote], on ASCII
    bytes: the string between double quotes, with the quote and the
    backslash escaped, the usual control characters by letter and the other
    unprintable bytes in hexadecimal.  (Bytes from 128 on are escaped in
    hexadecimal too, as Go does for bytes that are not valid UTF-8.) *)
Definition dquote : ascii := "034"%char.

Definition hex_digit (n : nat) : ascii :=
  match String.get n "0123456789abcdef" with
  | Some c => c
  | None => "0"%char
  end.

Definition quote_byte (c : ascii) : string :=
  let n := nat_of_ascii c in
  if (n =? 34)%nat then String "\" (String dquote EmptyString)
  else if (n =? 92)%nat then "\\"
  else if (32 <=? n)%nat && (n <=? 126)%nat then String c EmptyString
  else if (n =? 7)%nat then "\a"
  else if (n =? 8)%nat then "\b"
  else if (n =? 12)%nat then "\f"
  else if (n =? 10)%nat then "\n"
  else if (n =? 13)%nat then "\r"
  else if (n =? 9)%nat then "\t"
  else if (n =? 11)%nat then "\v"
  else String "\" (String "x" (String (hex_digit (n / 16))
                                (String (hex_digit (n mod 16)) EmptyString))).

Fixpoint quote_bytes (s : string) : string :=
  match s with
  | EmptyString => EmptyString
  | String c s' => quote_byte c +:+ quote_bytes s'
  end.

Definition Quote (s : string) : string :=
  String dquote (quote_bytes s +:+ String dquote EmptyString).

End GoStrings.

(** ** The graph

    The [graph] package, with its [Graph] type and the helpers on vertex
    identifiers, is not part of the sources at hand; so are the [module] and
    [parse] packages, whose types [TraverseUntilModule] tests for. *)

(** Modelled from the spec: the value of a vertex, as far as
    [TraverseUntilModule] tells its dynamic types apart. *)
Inductive VertexValue : Type :=
  | ModuleTask                       (* a [*module.Module] *)
  | ModulePreparer                   (* a [*module.Preparer] *)
  | ParseNode (kind : string)        (* a [*parse.Node] of that kind *)
  | OtherValue (kind : string).      (* any other resource value *)

(** Modelled from the spec: the [Graph] type, a mapping from the identifier
    of a vertex to its value and to its outgoing dependency edges. *)
Record Graph : Type := mkGraph {
  values : gmap string VertexValue;
  edges : gmap string (list string)
}.

Module graph.

(** Modelled from the spec: [Contains(id)], the existence check. *)
Definition Contains (g : Graph) (id : string) : bool :=
  bool_decide (is_Some (values g !! id)).

(** Modelled from the spec: [Get(id)], the value of the vertex, absent for a
    missing identifier. *)
Definition Get (g : Graph) (id : string) : option VertexValue :=
  values g !! id.

(** Modelled from the spec: [Children(id)], the dependency edges of the
    vertex; none for a missing identifier. *)
Definition Children (g : Graph) (id : string) : list string :=
  default [] (edges g !! id).

(** Modelled from the spec: [IsRoot(v)] is true iff the identifier is exactly
    [root]. *)
Definition IsRoot (id : string) : bool := bool_decide (id = "root").

(** Modelled from the spec: [ParentID(v)] drops the last segment of the
    dot-separated identifier. *)
Definition ParentID (id : string) : string :=
  let parts := GoStrings.Split "."%char id in
  GoStrings.Join "." (take (length parts - 1) parts).

(** Modelled from the spec: [SiblingID(base, leaf)] is
    [ParentID(base) + "." + leaf]. *)
Definition SiblingID (base leaf : string) : string :=
  ParentID base +:+ "." +:+ leaf.

End graph.

(** ** Splitting a reference: [SplitTerms] to [VertexSplit] *)

Definition SplitTerms (s : string) : list string := GoStrings.Split "."%char s.

Definition JoinTerms (s : list string) : string := GoStrings.Join "." s.

(** [for i := 0; i < len(in); i++ { results = append([][]string{in[0:i+1]}, results...) }] *)
Definition Inits (l : list string) : list (list string) :=
  fold_left (λ results i, take (i + 1) l :: results) (seq 0 (length l)) [].

Definition Prefixes (s : string) : list string :=
  JoinTerms <$> Inits (SplitTerms s).

Fixpoint Find (slice : list string) (f : string → bool) : string * bool :=
  match slice with
  | [] => (EmptyString, false)
  | elem :: rest => if f elem then (elem, true) else Find rest f
  end.

Definition VertexSplit (g : Graph) (s : string)
  : outcome (string * string * bool) :=
  let '(prefix, found) := Find (Prefixes s) (graph.Contains g) in
  if negb found then Ok (EmptyString, s, false)
  else if String.eqb prefix s then Ok (prefix, EmptyString, true)
  else rest ←? GoStrings.slice_from s (String.length prefix + 1);
       Ok (prefix, rest, true).


(** ** Desugaring a call *)

Definition MkCallPipeline (s : string) : string :=
  GoStrings.Join " | " (SplitTerms s).

Definition DesugarCall (g : Graph) (call : string) : outcome string :=
  '(pfx, rest, found) ←? VertexSplit g call;
  if negb found then Err ErrNonExistentDependency
  else
    let out := "(noderef " +:+ GoStrings.Quote pfx +:+ ")" in
    let out :=
      if negb (String.eqb rest EmptyString)
      then out +:+ "| " +:+ MkCallPipeline rest
      else out in
    Ok out.

(** ** Scope-aware splitting

    [VertexSplitTraverse] recurses without a bound of its own, so the
    embedding takes the recursion depth it may use as [fuel]: [None] says the
    depth did not suffice.  The [history] map is shared by all the calls and
    written by each, so it is threaded through and returned. *)

Definition fbind {A B} (m : option (outcome A)) (k : A → option (outcome B))
  : option (outcome B) :=
  match m with
  | None => None
  | Some (Ok a) => k a
  | Some (Err e) => Some (Err e)
  | Some Panic => Some Panic
  end.

Notation "x ←! m ; k" := (fbind m (λ x, k))
  (at level 20, m at level 100, k at level 200, only parsing).
Notation "' p ←! m ; k" := (fbind m (λ x, match x with p => k end))
  (at level 20, p pattern, m at level 100, k at level 200, only parsing).

Definition split_result : Type := string * string * bool.

Section children.
Variable recurse : string → gset string → option (outcome (split_result * gset string)).
Variable stop_at : string → bool.

(** The [for _, child := range g.Children(startingNode)] loop: [Some r] when
    it returns [r] from inside, [None] when it runs to its end. *)
Fixpoint forChildren (children : list string) (history : gset string)
  : option (outcome (option split_result * gset string)) :=
  match children with
  | [] => Some (Ok (None, history))
  | child :: rest =>
      if bool_decide (child ∈ history) then forChildren rest history
      else if stop_at child then forChildren rest history
      else
        '(r, history) ←! recurse child history;
        let '(vertex, middle, found) := r in
        if found then Some (Ok (Some (vertex, middle, found), history))
        else forChildren rest history
  end.
End children.

Fixpoint VertexSplitTraverse (fuel : nat) (g : Graph) (toFind startingNode : string)
    (stop : Graph → string → bool) (history : gset string)
  : option (outcome (split_result * gset string)) :=
  match fuel with
  | O => None
  | S fuel =>
      let history := {[startingNode]} ∪ history in
      '(returned, history) ←!
        forChildren (λ child h, VertexSplitTraverse fuel g toFind child stop h)
                    (stop g) (graph.Children g startingNode) history;
      match returned with
      | Some r => Some (Ok (r, history))
      | None =>
          if stop g startingNode then Some (Ok ((EmptyString, toFind, false), history))
          else
            let fqgn := graph.SiblingID startingNode toFind in
            '(vertex, middle, found) ←! Some (VertexSplit g fqgn);
            if found then Some (Ok ((vertex, middle, found), history))
            else
              let parentID := graph.ParentID startingNode in
              VertexSplitTraverse fuel g toFind parentID stop history
      end
  end.

Definition TraverseUntilModule (g : Graph) (id : string) : bool :=
  if graph.IsRoot id then true
  else match graph.Get g id with
       | None => true
       | Some elem =>
           match elem with
           | ModuleTask => true
           | ModulePreparer => true
           | ParseNode kind => String.eqb kind "module"
           | OtherValue _ => false
           end
       end.

(** ** Reflected values

    What the source observes of a Go value through [reflect]: its kind,
    whether it is nil, what a pointer or an interface holds, and the fields of
    a struct in declaration order, each with its name, whether it is embedded
    ([Anonymous]), and its value.  [Zero] is the zero [reflect.Value], which
    [reflect.ValueOf(nil)] returns.  Slices, arrays, maps, channels and
    functions are [Opaque]: the source looks at their kind and nil-ness only
    (an array is never nil).  [tname] is the name [%T] prints. *)

Inductive Kind : Type :=
  | KInvalid | KBool | KInt | KString | KArray | KChan | KFunc
  | KInterface | KMap | KPtr | KSlice | KStruct.

Global Instance Kind_eq_dec : EqDecision Kind.
Proof. solve_decision. Defined.

Inductive OpaqueKind : Type :=
  | OSlice | OArray | OMap | OChan | OFunc.

Definition kindOf (k : OpaqueKind) : Kind :=
  match k with
  | OSlice => KSlice
  | OArray => KArray
  | OMap => KMap
  | OChan => KChan
  | OFunc => KFunc
  end.

#[local] Set Warnings "-register-all".

Inductive Value : Type :=
  | Zero
  | Str (s : string)
  | Boolean (b : bool)
  | Num (tname : string) (n : Z)
  | Opaque (k : OpaqueKind) (tname : string) (isnil : bool)
  | NilPtr (tname : string)
  | PtrTo (v : Value)
  | NilIface
  | IfaceOf (dyn : Value)
  | StructV (tname : string) (fields : list (string * bool * Value)).

Definition ValueKind (v : Value) : Kind :=
  match v with
  | Zero => KInvalid
  | Str _ => KString
  | Boolean _ => KBool
  | Num _ _ => KInt
  | Opaque k _ _ => kindOf k
  | NilPtr _ | PtrTo _ => KPtr
  | NilIface | IfaceOf _ => KInterface
  | StructV _ _ => KStruct
  end.

(** [v.IsNil()]: panics on the kinds that have no nil. *)
Definition IsNil (v : Value) : outcome bool :=
  match v with
  | NilPtr _ => Ok true
  | PtrTo _ => Ok false
  | NilIface => Ok true
  | IfaceOf _ => Ok false
  | Opaque k _ isnil =>
      match k with
      | OArray => Panic
      | _ => Ok isnil
      end
  | _ => Panic
  end.

(** [IsNil] where the kind was tested first, so that it cannot panic. *)
Definition isTrue (o : outcome bool) : bool :=
  match o with
  | Ok b => b
  | _ => false
  end.

(** [v.Elem()] of a pointer or an interface. *)
Definition Elem (v : Value) : outcome Value :=
  match v with
  | PtrTo t => Ok t
  | NilPtr _ => Ok Zero
  | IfaceOf d => Ok d
  | NilIface => Ok Zero
  | _ => Panic
  end.

(** A field is exported when its name starts with an upper-case letter;
    [Interface()] panics on a value reached through a field that is not. *)
Definition exported (name : string) : bool :=
  match name with
  | String c _ => (65 <=? nat_of_ascii c)%nat && (nat_of_ascii c <=? 90)%nat
  | EmptyString => false
  end.

(** [reflect.ValueOf(v.Interface())]: the value a field hands on as an
    [interface{}], looked at again; an interface field hands on what it
    holds. *)
Definition viaInterface (v : Value) : Value :=
  match v with
  | IfaceOf d => d
  | NilIface => Zero
  | _ => v
  end.

Fixpoint TypeName (v : Value) : string :=
  match v with
  | Zero => "<nil>"
  | Str _ => "string"
  | Boolean _ => "bool"
  | Num tname _ => tname
  | Opaque _ tname _ => tname
  | NilPtr tname => "*" +:+ tname
  | PtrTo t => "*" +:+ TypeName t
  | IfaceOf d => TypeName d
  | NilIface => "<nil>"
  | StructV tname _ => tname
  end.

Definition canBeNil (r : Value) : bool :=
  match ValueKind r with
  | KPtr | KInterface => true
  | KSlice | KArray | KMap => true
  | KChan | KFunc => true
  | _ => false
  end.

(** [canBeNil(v) && v.IsNil()] *)
Definition nilValue (v : Value) : outcome bool :=
  if canBeNil v then IsNil v else Ok false.

(** Returns true if this is a non-nil pointer or interface *)
Definition indirectStruct (v : Value) : bool :=
  (bool_decide (ValueKind v = KPtr) && negb (isTrue (IsNil v)))
  || bool_decide (ValueKind v = KInterface).

(** [for { if !indirectStruct(val) { break }; val = val.Elem() }]: the value
    the loop ends at. *)
Fixpoint indirect (val : Value) : Value :=
  match val with
  | PtrTo v => indirect v
  | IfaceOf v => indirect v
  | NilIface => Zero
  | _ => val
  end.

(** ** [FieldMap] *)

(** The three maps of [FieldMap]: [results], [embeddedRefs], [unembeddedRefs]. *)
Record fmaps : Type := mkFmaps {
  results : gmap string Value;
  embeddedRefs : gmap string nat;
  unembeddedRefs : gmap string nat
}.

(** [for k, v := range FieldMap(...) { ... }], one entry *)
Definition countEmbedded (k : string) (v : Value) (st : fmaps) : fmaps :=
  let embeddedRefs :=
    match embeddedRefs st !! k with
    | Some val => <[k := val + 1]> (embeddedRefs st)
    | None => <[k := 1]> (embeddedRefs st)
    end in
  let results :=
    match results st !! k with
    | Some _ => results st
    | None => <[k := v]> (results st)
    end in
  mkFmaps results embeddedRefs (unembeddedRefs st).

Section fields.
(** [embedded v] stands for [FieldMap(v.Interface())] on an embedded field. *)
Variable embedded : Value → outcome (gmap string Value).

(** [for idx := 0; idx < val.Type().NumField(); idx++ { ... }] *)
Fixpoint forFields (fields : list (string * bool * Value)) (idx : nat) (st : fmaps)
  : outcome fmaps :=
  match fields with
  | [] => Ok st
  | (name, anonymous, field) :: rest =>
      if anonymous then
        isnil ←? nilValue field;
        if isnil then
          forFields rest (idx + 1)
            (mkFmaps (<[name := field]> (results st)) (embeddedRefs st) (unembeddedRefs st))
        else
          inner ←? (if exported name then embedded field else Panic);
          let st := map_fold countEmbedded st inner in
          forFields rest (idx + 1)
            (mkFmaps (<[name := field]> (results st)) (embeddedRefs st) (unembeddedRefs st))
      else
        forFields rest (idx + 1)
          (mkFmaps (<[name := field]> (results st)) (embeddedRefs st)
                   (<[name := idx]> (unembeddedRefs st)))
  end.
End fields.

(** [for ref, count := range embeddedRefs { ... }], one entry *)
Definition resolveRef (fields : list (string * bool * Value)) (unembedded : gmap string nat)
    (ref : string) (count : nat) (res : outcome (gmap string Value))
  : outcome (gmap string Value) :=
  res ←? res;
  if (count <=? 1)%nat then Ok res
  else match unembedded !! ref with
       | Some idx =>
           match fields !! idx with
           | Some (_, _, field) => Ok (<[ref := field]> res)
           | None => Panic
           end
       | None => Ok (delete ref res)
       end.

(** [FieldMapFrom entry v] is [FieldMap] from its first line on when [entry]
    holds, and from the dereferencing loop on, at the value [v] the loop has
    reached, when it does not. *)
Fixpoint FieldMapFrom (entry : bool) (val : Value) {struct val}
  : outcome (gmap string Value) :=
  match val with
  | NilPtr _ | NilIface => if entry then Ok ∅ else Panic
  | Opaque k _ _ => if entry then (isnil ←? nilValue val; if isnil then Ok ∅ else Panic) else Panic
  | PtrTo v | IfaceOf v => FieldMapFrom false v
  | StructV _ fields =>
      st ←? forFields (λ field,
                match field with
                | IfaceOf d => FieldMapFrom true d
                | NilIface => Panic
                | _ => FieldMapFrom true field
                end) fields 0 (mkFmaps ∅ ∅ ∅);
      map_fold (resolveRef fields (unembeddedRefs st)) (Ok (results st)) (embeddedRefs st)
  | Zero | Str _ | Boolean _ | Num _ _ => Panic
  end.

Definition FieldMap (obj : Value) : outcome (gmap string Value) :=
  FieldMapFrom true obj.

(** ** [EvalTerms] *)

(** [for k := range src { keys[strings.ToLower(k)] = k }] *)
Definition lookupMap (src : gmap string Value) : gmap string string * gmap string Value :=
  let keys := map_fold (λ k _ keys, <[GoStrings.ToLower k := k]> keys) ∅ src in
  (keys, src).

(** [for k := range lookupMap { validKeys = append(validKeys, k) }] *)
Definition rangeKeys {A} (m : gmap string A) : list string := (map_to_list m).*1.

(** The [obj] of [EvalTerms] is an [interface{}]; the embedding holds it as
    the value [reflect.ValueOf(obj)].  [fieldMap[key]] of a key the map lacks
    is the zero [reflect.Value], on which [Interface()] panics; [Interface()]
    also panics on the value of a field that is not exported. *)
Fixpoint EvalTerms (obj : Value) (terms : list string) : outcome Value :=
  match terms with
  | [] => Ok obj
  | term :: terms =>
      let term := GoStrings.ToLower term in
      fm ←? FieldMap obj;
      let '(lookupMap, fieldMap) := lookupMap fm in
      match lookupMap !! term with
      | None => Err (ErrNoDefinedField (TypeName obj) term (rangeKeys lookupMap))
      | Some key =>
          match fieldMap !! key with
          | None => Panic
          | Some val =>
              if bool_decide (ValueKind val = KPtr) && isTrue (IsNil val)
              then Err ErrUnresolvable
              else if exported key then EvalTerms (viaInterface val) terms
              else Panic
          end
      end
  end.

(** ** Reflected types

    A [reflect.Type]: a pointer type, a struct type with its fields in
    declaration order (name, embedded or not, type), or any other type, of
    which the source looks at the kind and the name only. *)

Inductive GoType : Type :=
  | TOther (k : Kind) (name : string)
  | TPtr (elem : GoType)
  | TStruct (name : string) (fields : list (string * bool * GoType)).

Definition TypeKind (t : GoType) : Kind :=
  match t with
  | TOther k _ => k
  | TPtr _ => KPtr
  | TStruct _ _ => KStruct
  end.

Fixpoint TypeString (t : GoType) : string :=
  match t with
  | TOther _ name => name
  | TPtr elem => "*" +:+ TypeString elem
  | TStruct name _ => name
  end.

Fixpoint type_eqb (t u : GoType) {struct t} : bool :=
  match t, u with
  | TOther k name, TOther k' name' => bool_decide (k = k') && String.eqb name name'
  | TPtr elem, TPtr elem' => type_eqb elem elem'
  | TStruct name fields, TStruct name' fields' =>
      String.eqb name name'
      && (fix all2 (fs fs' : list (string * bool * GoType)) {struct fs} : bool :=
            match fs, fs' with
            | [], [] => true
            | (n, a, ft) :: fs, (n', a', ft') :: fs' =>
                String.eqb n n' && Bool.eqb a a' && type_eqb ft ft' && all2 fs fs'
            | _, _ => false
            end) fields fields'
  | _, _ => false
  end.

(** [for v.Kind() == reflect.Ptr { v = v.Elem() }] *)
Fixpoint interfaceToConcreteType (t : GoType) : GoType :=
  match t with
  | TPtr elem => interfaceToConcreteType elem
  | _ => t
  end.

(** [ListFields] on the type [v] its type switch ends with; [None] is the
    nil [reflect.Type] that [reflect.TypeOf(nil)] returns, on which
    [v.Kind()] panics. *)
Definition ListFields (v : option GoType) : outcome (list string) :=
  match v with
  | None => Panic
  | Some v =>
      let v := interfaceToConcreteType v in
      if negb (bool_decide (TypeKind v = KStruct)) then Err (ErrNotAStruct (TypeString v))
      else match v with
           | TStruct _ fields => Ok (fields.*1.*1)
           | _ => Panic
           end
  end.

(** ** The field-map cache

    Go maps are references: [fieldMapCache.Put(t, m)] stores the map [m]
    itself, not a copy.  The embedding therefore keeps the maps in a [heap],
    names them by address, and has the cache hold addresses. *)

Record store : Type := mkStore {
  heap : list (gmap string string);
  vals : list (GoType * nat)
}.

Definition makeCache : store := mkStore [] [].

Definition alloc (st : store) : nat * store :=
  (length (heap st), mkStore (heap st ++ [∅]) (vals st)).

Definition load (st : store) (m : nat) : gmap string string :=
  default ∅ (heap st !! m).

Definition assign (st : store) (m : nat) (k v : string) : store :=
  mkStore (<[m := <[k := v]> (load st m)]> (heap st)) (vals st).

Fixpoint assoc (t : GoType) (l : list (GoType * nat)) : option nat :=
  match l with
  | [] => None
  | (u, m) :: l => if type_eqb t u then Some m else assoc t l
  end.

Definition cacheGet (st : store) (t : GoType) : option nat := assoc t (vals st).

Definition cachePut (st : store) (t : GoType) (m : nat) : store :=
  mkStore (heap st) ((t, m) :: vals st).

Section addFields.
(** [embeddedType ft m conflicts st] stands for
    [anonType := interfaceToConcreteType(ft); if anonType.Kind() == reflect.Struct { m, err = addFieldsToMap(m, conflicts, anonType) }]. *)
Variable embeddedType : GoType → nat → gset string → store → outcome (nat * gset string * store).

(** [for idx := 0; idx < t.NumField(); idx++ { ... }] *)
Fixpoint forTypeFields (fields : list (string * bool * GoType))
    (m : nat) (conflicts : gset string) (st : store) : outcome (nat * gset string * store) :=
  match fields with
  | [] => Ok (m, conflicts, st)
  | (name, anonymous, ftype) :: rest =>
      if anonymous then
        let lower := GoStrings.ToLower name in
        let st := match load st m !! lower with
                  | Some _ => st
                  | None => assign st m lower name
                  end in
        '(m, conflicts, st) ←? embeddedType ftype m conflicts st;
        forTypeFields rest m conflicts st
      else
        let lower := GoStrings.ToLower name in
        match load st m !! lower with
        | Some _ => forTypeFields rest m ({[lower]} ∪ conflicts) st
        | None =>
            if bool_decide (lower ∈ conflicts) then forTypeFields rest m conflicts st
            else forTypeFields rest m conflicts (assign st m lower name)
        end
  end.
End addFields.

(** [addFieldsFrom false t] is [addFieldsToMap] at [t]: the cached map when
    there is one, else the loop over the fields of [t] ([t.NumField()] panics
    when [t] is no struct type) and the [Put].  [addFieldsFrom true t] is the
    step for an embedded field of type [t]: strip the pointers
    ([interfaceToConcreteType]) and call [addFieldsToMap] when a struct type
    is left. *)
Fixpoint addFieldsFrom (embedded : bool) (t : GoType) (m : nat) (conflicts : gset string)
    (st : store) {struct t} : outcome (nat * gset string * store) :=
  match t with
  | TStruct _ fields =>
      match cacheGet st t with
      | Some cached => Ok (cached, conflicts, st)
      | None =>
          '(m, conflicts, st) ←? forTypeFields (addFieldsFrom true) fields m conflicts st;
          Ok (m, conflicts, cachePut st t m)
      end
  | TPtr elem =>
      if embedded then addFieldsFrom true elem m conflicts st
      else match cacheGet st t with
           | Some cached => Ok (cached, conflicts, st)
           | None => Panic
           end
  | TOther _ _ =>
      if embedded then Ok (m, conflicts, st)
      else match cacheGet st t with
           | Some cached => Ok (cached, conflicts, st)
           | None => Panic
           end
  end.

Definition addFieldsToMap (m : nat) (conflicts : gset string) (t : GoType) (st : store)
  : outcome (nat * gset string * store) :=
  addFieldsFrom false t m conflicts st.

(** [fieldMap] on a [reflect.Type]: the address of the map it returns and the
    store it leaves. *)
Definition fieldMap (t : GoType) (st : store) : outcome (nat * store) :=
  let '(fieldMap, st) := alloc st in
  let conflictMap : gset string := ∅ in
  let t' := interfaceToConcreteType t in
  if negb (bool_decide (TypeKind t' = KStruct)) then Err (ErrNonStructType "*reflect.rtype")
  else
    '(m, _, st) ←? addFieldsToMap fieldMap conflictMap t' st;
    Ok (m, st).

Definition LookupCanonicalFieldName (t : GoType) (term : string) (st : store)
  : outcome (string * store) :=
  let term := GoStrings.ToLower term in
  '(m, st) ←? fieldMap t st;
  match load st m !! term with
  | Some correctCase => Ok (correctCase, st)
  | None => Err (ErrNoMatchingField (TypeString t) term (rangeKeys (load st m)))
  end.

(** ** The [user.user] preparer *)

Module user.

(** A [uint32] is held as its value in [N]; [math.MaxUint32]. *)
Definition MaxUint32 : N := 4294967295.

(** [fmt.Sprintf] with the verb [%v] on a [uint32]: decimal digits. *)
Definition Sprintf_v (n : N) : string := NilEmpty.string_of_uint (N.to_uint n).

Record Preparer : Type := mkPreparer {
  Username : string;
  NewUsername : string;
  UID : option N;
  GroupName : string;
  GID : option N;
  Name : string;
  HomeDir : string;
  MoveDir : bool;
  State : string
}.

(** Modelled from the spec: the [User] task is declared in a file of the
    package that is not part of the sources at hand; it is given the fields
    [Prepare] assigns.  What the constructor [NewUser(new(System))] of that
    file returns is left open: it is the variable [NewUser] below. *)
Record User : Type := mkUser {
  uUsername : string;
  uNewUsername : string;
  uUID : string;
  uGroupName : string;
  uGID : string;
  uName : string;
  uHomeDir : string;
  uMoveDir : bool;
  uState : string
}.

(** Modelled from the spec: the constant [StatePresent], declared in the same
    missing file; the comment of [Preparer.State] gives [present] as the
    default and as one of the two valid values. *)
Definition StatePresent : string := "present".

Section Prepare.
Variable NewUser : User.

(** [Prepare] has a pointer receiver and may assign [p.State]: it returns
    the preparer it leaves next to its result. *)
Definition Prepare (p : Preparer) : Preparer * outcome User :=
  if match UID p with Some uid => (uid =? MaxUint32)%N | None => false end
  then (p, Err ErrUIDOutOfRange)
  else if match GID p with Some gid => (gid =? MaxUint32)%N | None => false end
  then (p, Err ErrGIDOutOfRange)
  else if MoveDir p && String.eqb (HomeDir p) EmptyString
  then (p, Err ErrHomeDirRequired)
  else
    let p :=
      if String.eqb (State p) EmptyString
      then mkPreparer (Username p) (NewUsername p) (UID p) (GroupName p) (GID p)
                      (Name p) (HomeDir p) (MoveDir p) StatePresent
      else p in
    let usr := NewUser in
    let usr := mkUser (Username p) (NewUsername p) (uUID usr) (GroupName p) (uGID usr)
                      (Name p) (HomeDir p) (MoveDir p) (State p) in
    let usr :=
      match UID p with
      | Some uid => mkUser (uUsername usr) (uNewUsername usr) (Sprintf_v uid)
                           (uGroupName usr) (uGID usr) (uName usr) (uHomeDir usr)
                           (uMoveDir usr) (uState usr)
      | None => usr
      end in
    let usr :=
      match GID p with
      | Some gid => mkUser (uUsername usr) (uNewUsername usr) (uUID usr)
                           (uGroupName usr) (Sprintf_v gid) (uName usr) (uHomeDir usr)
                           (uMoveDir usr) (uState usr)
      | None => usr
      end in
    (p, Ok usr).
End Prepare.

End user.

(** ** Notions the properties are stated with *)

(** [q] is a dotted prefix of [s]: all of [s], or what comes before one of
    its dots. *)
Definition dotted_prefix (q s : string) : Prop :=
  q = s ∨ ∃ r, s = q +:+ "." +:+ r.

(** The first segment of [s]: its bytes before the first dot. *)
Fixpoint first_segment (s : string) : string :=
  match s with
  | EmptyString => EmptyString
  | String c s' => if Ascii.eqb c "."%char then EmptyString else String c (first_segment s')
  end.

(** A byte [%q] prints as it is: printable ASCII other than the double quote
    and the backslash.  The bytes of a vertex identifier are of this kind. *)
Definition plain_byte (c : ascii) : bool :=
  let n := nat_of_ascii c in
  (32 <=? n)%nat && (n <=? 126)%nat && negb (n =? 34)%nat && negb (n =? 92)%nat.

Fixpoint plain (s : string) : bool :=
  match s with
  | EmptyString => true
  | String c s' => plain_byte c && plain s'
  end.

(** The text [(noderef "p")]. *)
Definition noderef (p : string) : string :=
  "(noderef " +:+ String GoStrings.dquote (p +:+ String GoStrings.dquote ")").

(** A graph that contains [task.go-dl]. *)
Definition build_graph : Graph :=
  mkGraph (<["task.go-dl" := OtherValue "task"]> ∅) ∅.

(** Modelled from the spec: the renderer's resolution of a [lookup] reference
    is not part of the sources at hand.  It runs the scope-aware split from
    the vertex being rendered, with [TraverseUntilModule] and a fresh
    history, and fails with [MissingVertex] when nothing is found. *)
Definition resolve (fuel : nat) (g : Graph) (name start : string)
  : option (outcome (string * string)) :=
  '(r, _) ←! VertexSplitTraverse fuel g name start TraverseUntilModule ∅;
  let '(vertex, rest, found) := r in
  if found then Some (Ok (vertex, rest)) else Some (Err (ErrMissingVertex name)).

(** A vertex value that is a module, by any of the three ways
    [TraverseUntilModule] knows. *)
Definition isModule (elem : VertexValue) : bool :=
  match elem with
  | ModuleTask | ModulePreparer => true
  | ParseNode kind => String.eqb kind "module"
  | OtherValue _ => false
  end.

(** The graph of the lexical-scope scenario: its four vertices, with their
    values, over any dependency edges. *)
Definition scope_graph (m1 x m2 y : VertexValue) (deps : gmap string (list string)) : Graph :=
  mkGraph (<["root.m1.module" := m1]>
           (<["root.m1.file.x" := x]>
            (<["root.m2.module" := m2]>
             (<["root.m2.file.y" := y]> ∅)))) deps.

(** A module [root.a.m] next to a vertex [root.a.x]. *)
Definition sibling_graph : Graph :=
  mkGraph (<["root.a.m" := ModuleTask]> (<["root.a.x" := OtherValue "file"]> ∅)) ∅.

(** The preparers [Prepare] rejects. *)
Definition rejected (p : user.Preparer) : Prop :=
  user.UID p = Some user.MaxUint32 ∨ user.GID p = Some user.MaxUint32
  ∨ (user.MoveDir p = true ∧ user.HomeDir p = EmptyString).

(** The body of [FieldMap] at a struct with the fields [fields]: the loop
    over the fields, then the loop over [embeddedRefs]. *)
Definition structFields (fields : list (string * bool * Value)) : outcome (gmap string Value) :=
  st ←? forFields (λ field, FieldMap (viaInterface field)) fields 0 (mkFmaps ∅ ∅ ∅);
  map_fold (resolveRef fields (unembeddedRefs st)) (Ok (results st)) (embeddedRefs st).

(** The name [n] is declared on the record itself: one of its fields that is
    not embedded has that name. *)
Definition declares (n : string) (fields : list (string * bool * Value)) : Prop :=
  ∃ v, (n, false, v) ∈ fields.

(** The name [n] appears in the embedded record [field]: the field is
    embedded and the field map of its value has [n]. *)
Definition appears_in (n : string) (field : string * bool * Value) : bool :=
  let '(_, anonymous, fv) := field in
  anonymous && match FieldMap (viaInterface fv) with
               | Ok m => bool_decide (is_Some (m !! n))
               | _ => false
               end.

(** In how many embedded records of [fields] the name [n] appears. *)
Fixpoint embedded_occurrences (n : string) (fields : list (string * bool * Value)) : nat :=
  match fields with
  | [] => 0
  | field :: rest => (if appears_in n field then 1 else 0) + embedded_occurrences n rest
  end.

(** The records of the flattening scenario:
    [Outer{ Name; E1{ Shared; A }; E2{ Shared; B } }], and the same with a
    field [Shared] added to [Outer]. *)
Definition E1 : Value :=
  StructV "E1" [("Shared", false, Str "of E1"); ("A", false, Str "a")].
Definition E2 : Value :=
  StructV "E2" [("Shared", false, Str "of E2"); ("B", false, Str "b")].
Definition Outer : Value :=
  StructV "Outer" [("Name", false, Str "name"); ("E1", true, E1); ("E2", true, E2)].
Definition OuterShared : Value :=
  StructV "Outer" [("Name", false, Str "name"); ("E1", true, E1); ("E2", true, E2);
                   ("Shared", false, Str "of Outer")].

(** A record whose field [Cfg] is a nil pointer to a record with a field
    [Host]. *)
Definition NilCfg : Value :=
  StructV "Obj" [("Name", false, Str "obj"); ("Cfg", false, NilPtr "Cfg")].

(** The mapping [fieldMap] returns for [t] from the store [st] (the content
    of the map it returns), and the mapping the cache holds for [t]. *)
Definition mappingOf (t : GoType) (st : store) : option (gmap string string * store) :=
  match fieldMap t st with
  | Ok (m, st') => Some (load st' m, st')
  | _ => None
  end.

Definition cached (st : store) (t : GoType) : option (gmap string string) :=
  load st <$> cacheGet st t.

(** [type E struct { A string }] and [type Outer struct { E; B string }]. *)
Definition typeE : GoType := TStruct "E" [("A", false, TOther KString "string")].
Definition typeOuter : GoType :=
  TStruct "Outer" [("E", true, typeE); ("B", false, TOther KString "string")].

(** A [for k, v := range m] loop whose iterations come in the order [l] of
    the entries of [m].  Go leaves that order open; the embedded functions run
    their loops with [map_fold], in the order of [map_to_list]. *)
Definition rangeOver {A B} (f : string → A → B → B) (l : list (string * A)) (b : B) : B :=
  fold_left (λ b kv, f kv.1 kv.2 b) l b.

(** The graph with the vertices [a], [a.b] and [a.b.c]. *)
Definition abc_graph : Graph :=
  mkGraph (<["a" := OtherValue "task"]>
           (<["a.b" := OtherValue "task"]> (<["a.b.c" := OtherValue "task"]> ∅))) ∅.

(** [Outer{ E1{ X string }; E2{ X string }; X{ V string } }]: the embedded
    record [X] has the name of a field of [E1] and of [E2]. *)
Definition OuterX : Value :=
  StructV "Outer" [("E1", true, StructV "E1" [("X", false, Str "of E1")]);
                   ("E2", true, StructV "E2" [("X", false, Str "of E2")]);
                   ("X", true, StructV "X" [("V", false, Str "v")])].

(** ** More notions, for the further properties *)

(** [s] holds no dot. *)
Fixpoint dot_free (s : string) : bool :=
  match s with
  | EmptyString => true
  | String c s' => negb (Ascii.eqb c "."%char) && dot_free s'
  end.

(** Where a binding [n -> v] of the field map of a record with the fields
    [fields] can come from: a field of the record, or a binding of the field
    map of one of its embedded records. *)
Definition field_source (fields : list (string * bool * Value)) (n : string) (v : Value)
  : Prop :=
  (∃ a, (n, a, v) ∈ fields)
  ∨ (∃ e fv inner, (e, true, fv) ∈ fields
                   ∧ FieldMap (viaInterface fv) = Ok inner ∧ inner !! n = Some v).

(** ** [HasPath], [EvalMember] and [mapToLower]

    The error of a function that makes errors the type [error] above does
    not list: what the function returns, nil or an error. *)
Inductive returned_error : Type :=
  (* nil *)
  | NoError
  (* one of the errors listed above *)
  | ReturnedError (e : error)
  (* HasPath: field is nil *)
  | ErrFieldIsNil
  (* EvalMember: %T has no field %s. Must be one of: %v *)
  | ErrHasNoField (ty name : string) (valid : list string).

(** [HasPath] returns one value, an error: [Ok] carries it. *)
Fixpoint HasPath (obj : Value) (terms : list string) : outcome returned_error :=
  match terms with
  | [] => Ok NoError
  | term :: terms =>
      let term := GoStrings.ToLower term in
      fm ←? FieldMap obj;
      let '(lookupMap, fieldMap) := lookupMap fm in
      match lookupMap !! term with
      | None =>
          Ok (ReturnedError (ErrNoDefinedField (TypeName obj) term (rangeKeys lookupMap)))
      | Some key =>
          match fieldMap !! key with
          | None => Panic
          | Some val =>
              if bool_decide (ValueKind val = KPtr) && isTrue (IsNil val)
              then Ok ErrFieldIsNil
              else if exported key then HasPath (viaInterface val) terms
              else Panic
          end
      end
  end.

(** [EvalMember] returns a [reflect.Value] and an error; with its error it
    returns [reflect.ValueOf(obj)].  [fields[k]] of a key the map lacks is
    the zero [reflect.Value]. *)
Definition EvalMember (name : string) (obj : Value) : outcome (Value * returned_error) :=
  fm ←? FieldMap obj;
  let '(keys, fields) := lookupMap fm in
  match keys !! GoStrings.ToLower name with
  | None => Ok (obj, ErrHasNoField (TypeName obj) name (rangeKeys keys))
  | Some k => Ok (default Zero (fields !! k), NoError)
  end.

(** [for idx, str := range strs { strs[idx] = strings.ToLower(str) }]: the
    slice is written in place, each element being read when its turn
    comes. *)
Definition mapToLower (strs : list string) : list string :=
  fold_left (λ strs idx,
               match strs !! idx with
               | Some str => <[idx := GoStrings.ToLower str]> strs
               | None => strs
               end)
            (seq 0 (length strs)) strs.

(** [EvalTerms] and [HasPath] end alike: both return normally, or both
    panic, or both return an error, for the same reason. *)
Definition alike (r : outcome Value) (h : outcome returned_error) : Prop :=
  match r, h with
  | Ok _, Ok NoError => True
  | Err ErrUnresolvable, Ok ErrFieldIsNil => True
  | Err (ErrNoDefinedField ty term valid), Ok (ReturnedError e) =>
      e = ErrNoDefinedField ty term valid
  | Panic, Panic => True
  | _, _ => False
  end.

(** Every map of the heap has lower-case keys, each bound to a name it is
    the lower case of. *)
Definition lowered (st : store) : Prop :=
  ∀ m, m ∈ heap st → ∀ k v, m !! k = Some v → GoStrings.ToLower v = k.

(** The name of the first of [fields] whose name is [k] in lower case. *)
Definition first_named (k : string) (fields : list (string * bool * GoType)) : option string :=
  (λ f, f.1.1) <$> List.find (λ f, String.eqb (GoStrings.ToLower f.1.1) k) fields.

(** [type User struct { Name string; HomeDir string; Homedir string }] *)
Definition typeUser : GoType :=
  TStruct "User" [("Name", false, TOther KString "string");
                  ("HomeDir", false, TOther KString "string");
                  ("Homedir", false, TOther KString "string")].

(** * Properties *)

(** ** Strings: splitting and joining *)

Section string_facts.

Lemma str_app_cons c (s t : string) : String c s +:+ t = String c (s +:+ t).
Proof. reflexivity. Qed.

Lemma str_app_nil_l (s : string) : EmptyString +:+ s = s.
Proof. reflexivity. Qed.

Lemma str_app_nil_r (s : string) : s +:+ EmptyString = s.
Proof. induction s as [|c s IH]; [done|]. by rewrite str_app_cons, IH. Qed.

Lemma str_app_assoc (s1 s2 s3 : string) : (s1 +:+ s2) +:+ s3 = s1 +:+ s2 +:+ s3.
Proof. induction s1 as [|c s1 IH]; [done|]. by rewrite !str_app_cons, IH. Qed.

Lemma str_length_app (s1 s2 : string) :
  String.length (s1 +:+ s2) = String.length s1 + String.length s2.
Proof. induction s1 as [|c s1 IH]; [done|]. rewrite str_app_cons. cbn. by rewrite IH. Qed.

Lemma drop_bytes_app (s1 s2 : string) :
  GoStrings.drop_bytes (String.length s1) (s1 +:+ s2) = s2.
Proof. induction s1 as [|c s1 IH]; [by destruct s2|]. apply IH. Qed.

Variable sep : ascii.

Lemma Split_nonempty s : GoStrings.Split sep s ≠ [].
Proof.
  destruct s as [|c s]; cbn; [done|].
  destruct (Ascii.eqb c sep); [done|]. by destruct (GoStrings.Split sep s).
Qed.

Lemma Join_cons (sp x : string) (l : list string) :
  l ≠ [] → GoStrings.Join sp (x :: l) = x +:+ sp +:+ GoStrings.Join sp l.
Proof. by destruct l. Qed.

Lemma Join_app (sp : string) (l1 l2 : list string) :
  l1 ≠ [] → l2 ≠ [] →
  GoStrings.Join sp (l1 ++ l2) = GoStrings.Join sp l1 +:+ sp +:+ GoStrings.Join sp l2.
Proof.
  induction l1 as [|x l1 IH]; [done|]. intros _ Hl2.
  destruct l1 as [|y l1].
  - cbn [app]. by rewrite Join_cons.
  - rewrite <-app_comm_cons, Join_cons by done.
    rewrite IH by done. rewrite (Join_cons sp x (y :: l1)) by done.
    by rewrite !str_app_assoc.
Qed.

Lemma Join_Split s : GoStrings.Join (String sep EmptyString) (GoStrings.Split sep s) = s.
Proof.
  induction s as [|c s IH]; [done|]. cbn [GoStrings.Split].
  destruct (Ascii.eqb_spec c sep) as [->|Hc].
  - rewrite Join_cons by apply Split_nonempty. by rewrite IH.
  - pose proof (Split_nonempty s) as Hne.
    destruct (GoStrings.Split sep s) as [|h t]; [done|].
    destruct t as [|h' t]; cbn in *; by rewrite <-IH.
Qed.

Lemma Split_app_sep q r :
  GoStrings.Split sep (q +:+ String sep r) = GoStrings.Split sep q ++ GoStrings.Split sep r.
Proof.
  induction q as [|c q IH].
  - rewrite str_app_nil_l. cbn. by rewrite Ascii.eqb_refl.
  - rewrite str_app_cons. cbn [GoStrings.Split]. rewrite IH.
    destruct (Ascii.eqb c sep); [done|].
    pose proof (Split_nonempty q) as Hne.
    by destruct (GoStrings.Split sep q).
Qed.

End string_facts.

(** ** [Inits] and [Prefixes] *)

Lemma Inits_fold (l : list string) (n a : nat) (acc : list (list string)) :
  fold_left (λ results i, take (i + 1) l :: results) (seq a n) acc
  = ((λ k, take k l) <$> reverse (seq (a + 1) n)) ++ acc.
Proof.
  revert a acc. induction n as [|n IH]; intros a acc; [done|].
  cbn [seq fold_left]. rewrite IH.
  replace (S a + 1) with (S (a + 1)) by lia. cbn [seq].
  by rewrite reverse_cons, fmap_app, <-(assoc_L (++)).
Qed.

Lemma Inits_takes (l : list string) :
  Inits l = (λ k, take k l) <$> reverse (seq 1 (length l)).
Proof. unfold Inits. by rewrite Inits_fold, (right_id_L [] (++)). Qed.

Lemma Prefixes_takes (s : string) :
  Prefixes s
  = (λ k, JoinTerms (take k (SplitTerms s))) <$> reverse (seq 1 (length (SplitTerms s))).
Proof. unfold Prefixes. rewrite Inits_takes, <-list_fmap_compose. done. Qed.

Lemma Prefixes_lookup (s : string) (i : nat) (p : string) :
  Prefixes s !! i = Some p ↔
  i < length (SplitTerms s) ∧ p = JoinTerms (take (length (SplitTerms s) - i) (SplitTerms s)).
Proof.
  rewrite Prefixes_takes, list_lookup_fmap, fmap_Some. split.
  - intros (k & Hk & ->). apply reverse_lookup_Some in Hk as [Hk Hi].
    rewrite length_seq in Hk, Hi. apply lookup_seq in Hk as [-> _].
    split; [done|]. do 2 f_equal. lia.
  - intros [Hi ->]. exists (length (SplitTerms s) - i). split; [|done].
    apply reverse_lookup_Some. rewrite length_seq. split; [|done].
    apply lookup_seq. lia.
Qed.

Lemma SplitTerms_length_pos (s : string) : 1 ≤ length (SplitTerms s).
Proof.
  pose proof (Split_nonempty "."%char s) as Hne. unfold SplitTerms.
  destruct (GoStrings.Split "." s); [done|cbn; lia].
Qed.

Lemma JoinTerms_SplitTerms (s : string) : JoinTerms (SplitTerms s) = s.
Proof. apply Join_Split. Qed.

Lemma SplitTerms_app_dot (q r : string) :
  SplitTerms (q +:+ "." +:+ r) = SplitTerms q ++ SplitTerms r.
Proof. apply (Split_app_sep "."%char q r). Qed.

Lemma JoinTerms_take_drop (l : list string) (k : nat) :
  1 ≤ k → k < length l →
  JoinTerms l = JoinTerms (take k l) +:+ "." +:+ JoinTerms (drop k l).
Proof.
  intros Hk Hlen. rewrite <-(take_drop k l) at 1. apply Join_app.
  - intros Hnil%(f_equal length). rewrite length_take in Hnil. simpl in Hnil. lia.
  - intros Hnil%(f_equal length). rewrite length_drop in Hnil. simpl in Hnil. lia.
Qed.

Lemma JoinTerms_take_length_lt (l : list string) (k k' : nat) :
  1 ≤ k → k < k' → k' ≤ length l →
  String.length (JoinTerms (take k l)) < String.length (JoinTerms (take k' l)).
Proof.
  intros Hk Hlt Hle.
  rewrite (JoinTerms_take_drop (take k' l) k) by (rewrite ?length_take; lia).
  rewrite take_take, Nat.min_l by lia. rewrite !str_length_app. simpl. lia.
Qed.

Lemma take_dotted_prefix (s : string) (k : nat) :
  1 ≤ k → k ≤ length (SplitTerms s) →
  dotted_prefix (JoinTerms (take k (SplitTerms s))) s.
Proof.
  intros Hk Hle. destruct (decide (k = length (SplitTerms s))) as [->|Hne].
  - left. by rewrite firstn_all, JoinTerms_SplitTerms.
  - right. exists (JoinTerms (drop k (SplitTerms s))).
    rewrite <-JoinTerms_take_drop by lia. by rewrite JoinTerms_SplitTerms.
Qed.

Lemma dotted_prefix_take (q s : string) :
  dotted_prefix q s →
  ∃ k, 1 ≤ k ∧ k ≤ length (SplitTerms s) ∧ q = JoinTerms (take k (SplitTerms s)).
Proof.
  intros [->|[r ->]].
  - exists (length (SplitTerms s)). split; [apply SplitTerms_length_pos|].
    split; [done|]. by rewrite firstn_all, JoinTerms_SplitTerms.
  - exists (length (SplitTerms q)). split; [apply SplitTerms_length_pos|].
    rewrite SplitTerms_app_dot, length_app, take_app_length. split; [lia|].
    by rewrite JoinTerms_SplitTerms.
Qed.

Lemma elem_of_Prefixes (q s : string) : q ∈ Prefixes s ↔ dotted_prefix q s.
Proof.
  rewrite list_elem_of_lookup. split.
  - intros [i [Hi ->]%Prefixes_lookup]. apply take_dotted_prefix; lia.
  - intros (k & Hk & Hle & ->)%dotted_prefix_take.
    exists (length (SplitTerms s) - k). apply Prefixes_lookup. split; [lia|].
    do 2 f_equal. lia.
Qed.

Lemma Prefixes_decreasing (s : string) (i j : nat) (p q : string) :
  i < j → Prefixes s !! i = Some p → Prefixes s !! j = Some q →
  String.length q < String.length p.
Proof.
  intros Hij [Hi ->]%Prefixes_lookup [Hj ->]%Prefixes_lookup.
  apply JoinTerms_take_length_lt; lia.
Qed.

Lemma first_segment_Split (s : string) :
  head (SplitTerms s) = Some (first_segment s).
Proof.
  unfold SplitTerms. induction s as [|c s IH]; [done|]. cbn.
  destruct (Ascii.eqb c "."); [done|].
  destruct (GoStrings.Split "." s); cbn in *; congruence.
Qed.

(** C9: [Prefixes(s)] holds exactly the dotted prefixes of [s], ordered from
    longest to shortest (strictly decreasing length); it begins with [s]
    itself and ends with the first segment of [s]; and
    [Prefixes("a.b.c.d")] is the list the specification gives. *)
Theorem Prefixes_longest_to_shortest (s : string) :
  (∀ q, q ∈ Prefixes s ↔ dotted_prefix q s) ∧
  (∀ i j p q, i < j → Prefixes s !! i = Some p → Prefixes s !! j = Some q →
              String.length q < String.length p) ∧
  head (Prefixes s) = Some s ∧
  last (Prefixes s) = Some (first_segment s) ∧
  Prefixes "a.b.c.d" = ["a.b.c.d"; "a.b.c"; "a.b"; "a"].
Proof.
  split; [intros q; apply elem_of_Prefixes|].
  split; [intros i j p q; apply Prefixes_decreasing|].
  pose proof (SplitTerms_length_pos s) as Hn.
  split; [|split; [|done]].
  - rewrite head_lookup. apply Prefixes_lookup. split; [lia|].
    by rewrite Nat.sub_0_r, firstn_all, JoinTerms_SplitTerms.
  - rewrite last_lookup.
    assert (length (Prefixes s) = length (SplitTerms s)) as ->.
    { by rewrite Prefixes_takes, length_fmap, length_reverse, length_seq. }
    apply Prefixes_lookup. split; [lia|].
    replace (length (SplitTerms s) - pred (length (SplitTerms s))) with 1 by lia.
    pose proof (first_segment_Split s) as Hhd.
    destruct (SplitTerms s) as [|x l]; simplify_eq/=. done.
Qed.

(** ** [Find] and [VertexSplit] *)

Lemma Find_true (slice : list string) (f : string → bool) (p : string) :
  Find slice f = (p, true) →
  ∃ i, slice !! i = Some p ∧ f p = true ∧
       ∀ j q, j < i → slice !! j = Some q → f q = false.
Proof.
  induction slice as [|x slice IH]; [done|]. cbn.
  destruct (f x) eqn:Hx.
  - intros [= <-]. exists 0. split; [done|]. split; [done|]. intros; lia.
  - intros (i & Hi & Hp & Hbefore)%IH. exists (S i). split; [done|]. split; [done|].
    intros [|j] q Hj Hq; simplify_eq/=; [done|]. apply (Hbefore j); [lia|done].
Qed.

Lemma Find_false (slice : list string) (f : string → bool) (p : string) :
  Find slice f = (p, false) ↔ p = EmptyString ∧ ∀ q, q ∈ slice → f q = false.
Proof.
  induction slice as [|x slice IH]; cbn.
  - split; [intros [= <-]; split; [done|]; by intros q ?%elem_of_nil|by intros [-> _]].
  - destruct (f x) eqn:Hx.
    + split; [done|]. intros [_ Hall]. specialize (Hall x (list_elem_of_here _ _)).
      congruence.
    + rewrite IH. split.
      * intros [-> Hall]. split; [done|]. by intros q [->|?]%elem_of_cons; [|apply Hall].
      * intros [-> Hall]. split; [done|]. intros q Hq. apply Hall. by right.
Qed.

Lemma slice_after_prefix (p r : string) :
  GoStrings.slice_from (p +:+ "." +:+ r) (String.length p + 1) = Ok r.
Proof.
  unfold GoStrings.slice_from. rewrite !str_length_app.
  destruct (Nat.leb_spec (String.length p + 1)
              (String.length p + (String.length "." + String.length r))) as [_|Hlt];
    [|simpl in Hlt; lia].
  rewrite <-str_app_assoc.
  replace (String.length p + 1) with (String.length (p +:+ "."))
    by (by rewrite str_length_app).
  by rewrite drop_bytes_app.
Qed.

Lemma dotted_prefix_proper_neq (p r : string) : p ≠ p +:+ "." +:+ r.
Proof.
  intros Heq%(f_equal String.length). rewrite !str_length_app in Heq. simpl in Heq. lia.
Qed.

(** What [VertexSplit] computes from the result of [Find]. *)
Lemma VertexSplit_found (g : Graph) (s p : string) :
  Find (Prefixes s) (graph.Contains g) = (p, true) →
  ∃ r, VertexSplit g s = Ok (p, r, true) ∧
       ((r = EmptyString ∧ p = s) ∨ s = p +:+ "." +:+ r).
Proof.
  intros Hfind. unfold VertexSplit. rewrite Hfind. cbn [negb].
  apply Find_true in Hfind as (i & Hi%list_elem_of_lookup_2 & _).
  apply elem_of_Prefixes in Hi as [->|[r ->]].
  - rewrite String.eqb_refl. eauto.
  - destruct (String.eqb_spec p (p +:+ "." +:+ r)) as [Heq|_].
    + by apply dotted_prefix_proper_neq in Heq.
    + rewrite slice_after_prefix. cbn. eauto.
Qed.

Lemma VertexSplit_not_found (g : Graph) (s p : string) :
  Find (Prefixes s) (graph.Contains g) = (p, false) →
  VertexSplit g s = Ok (EmptyString, s, false).
Proof. intros Hfind. unfold VertexSplit. by rewrite Hfind. Qed.

Lemma VertexSplit_total (g : Graph) (s : string) : ∃ res, VertexSplit g s = Ok res.
Proof.
  destruct (Find (Prefixes s) (graph.Contains g)) as [p [|]] eqn:Hfind.
  - apply VertexSplit_found in Hfind as (r & -> & _). eauto.
  - apply VertexSplit_not_found in Hfind as ->. eauto.
Qed.

Lemma VertexSplit_false_iff (g : Graph) (s : string) :
  (∀ q, dotted_prefix q s → graph.Contains g q = false) ↔
  VertexSplit g s = Ok (EmptyString, s, false).
Proof.
  destruct (Find (Prefixes s) (graph.Contains g)) as [p [|]] eqn:Hfind.
  - pose proof Hfind as (r & Hsplit & _)%VertexSplit_found. rewrite Hsplit.
    apply Find_true in Hfind as (i & Hi%list_elem_of_lookup_2 & Hp & _).
    apply elem_of_Prefixes in Hi. split; [|done].
    intros Hnone. apply Hnone in Hi. congruence.
  - pose proof Hfind as ->%VertexSplit_not_found.
    apply Find_false in Hfind as [_ Hall]. split; [done|].
    intros _ q Hq%elem_of_Prefixes. by apply Hall.
Qed.

Example VertexSplit_abc :
  VertexSplit abc_graph "a.b.c.d.e" = Ok ("a.b.c", "d.e", true)
  ∧ VertexSplit abc_graph "a.b.x" = Ok ("a.b", "x", true)
  ∧ VertexSplit abc_graph "z" = Ok (EmptyString, "z", false).
Proof. repeat split; reflexivity. Qed.

(** C1: [VertexSplit] always returns; when it returns [(p, r, true)], [p] is
    a vertex of [g], either [r] is empty and [p] is [s] or [s] is
    [p + "." + r], and no strictly longer dotted prefix of [s] is a vertex of
    [g]; when no dotted prefix of [s] is a vertex of [g], it returns
    not-found with all of [s] as the remainder. *)
Theorem VertexSplit_longest_prefix (g : Graph) (s : string) :
  (∃ res, VertexSplit g s = Ok res) ∧
  (∀ p r, VertexSplit g s = Ok (p, r, true) →
     graph.Contains g p = true ∧
     ((r = EmptyString ∧ p = s) ∨ s = p +:+ "." +:+ r) ∧
     ∀ q, dotted_prefix q s → String.length p < String.length q →
          graph.Contains g q = false) ∧
  ((∀ q, dotted_prefix q s → graph.Contains g q = false) →
   VertexSplit g s = Ok (EmptyString, s, false)).
Proof.
  split; [apply VertexSplit_total|]. split; [|apply VertexSplit_false_iff].
  intros p r Hsplit.
  destruct (Find (Prefixes s) (graph.Contains g)) as [p' [|]] eqn:Hfind.
  - pose proof Hfind as (r' & Hsplit' & Hshape)%VertexSplit_found.
    rewrite Hsplit in Hsplit'. simplify_eq.
    apply Find_true in Hfind as (i & Hi & Hp & Hbefore).
    split; [done|]. split; [done|]. intros q Hq Hlen.
    apply elem_of_Prefixes, list_elem_of_lookup in Hq as [j Hj].
    destruct (decide (j < i)) as [Hlt|Hge]; [by apply (Hbefore j)|].
    destruct (decide (j = i)) as [->|Hne]; [simplify_eq; lia|].
    pose proof (Prefixes_decreasing s i j p' q ltac:(lia) Hi Hj) as Hdec. lia.
  - apply VertexSplit_not_found in Hfind. congruence.
Qed.

(** ** [DesugarCall] *)

Lemma quote_bytes_plain (s : string) : plain s = true → GoStrings.quote_bytes s = s.
Proof.
  induction s as [|c s IH]; [done|]. cbn [plain GoStrings.quote_bytes].
  intros [Hc Hs]%andb_prop. rewrite (IH Hs).
  assert (GoStrings.quote_byte c = String c EmptyString) as ->; [|done].
  unfold plain_byte in Hc. unfold GoStrings.quote_byte.
  destruct (nat_of_ascii c =? 34)%nat; [by rewrite andb_false_r in Hc|].
  destruct (nat_of_ascii c =? 92)%nat; [by rewrite andb_false_r in Hc|].
  rewrite !andb_true_r in Hc. by rewrite Hc.
Qed.

Lemma Quote_plain (p : string) :
  plain p = true → "(noderef " +:+ GoStrings.Quote p +:+ ")" = noderef p.
Proof.
  intros Hp. unfold GoStrings.Quote, noderef. rewrite quote_bytes_plain by done.
  f_equal. rewrite (str_app_cons GoStrings.dquote). f_equal.
  by rewrite str_app_assoc.
Qed.

(** C7, as the code has it: for a call [s] whose longest vertex prefix in [g]
    is [p] (made of bytes [%q] prints as they are) with remainder [r],
    [DesugarCall(g, s)] emits exactly [(noderef "p")] when [r] is empty and
    exactly [(noderef "p")| f1 | ... | fn] otherwise, where [f1 ... fn] are
    the segments of [r]: there is no space between the closing parenthesis
    and the first bar. *)
Theorem DesugarCall_emits (g : Graph) (s p r : string) :
  VertexSplit g s = Ok (p, r, true) →
  plain p = true →
  DesugarCall g s
  = Ok (if String.eqb r EmptyString then noderef p
        else noderef p +:+ "| " +:+ GoStrings.Join " | " (SplitTerms r)).
Proof.
  intros Hsplit Hp. unfold DesugarCall. rewrite Hsplit. cbn [obind negb].
  rewrite Quote_plain by done. by destruct (String.eqb r EmptyString).
Qed.

Lemma DesugarCall_emits_witness :
  VertexSplit build_graph "task.go-dl.dir" = Ok ("task.go-dl", "dir", true)
  ∧ plain "task.go-dl" = true
  ∧ DesugarCall build_graph "task.go-dl.dir" = Ok (noderef "task.go-dl" +:+ "| dir").
Proof.
  split; [reflexivity|]. split; [reflexivity|].
  apply (DesugarCall_emits build_graph "task.go-dl.dir" "task.go-dl" "dir");
    reflexivity.
Defined.

(** C7, as stated, fails: on a graph that contains [task.go-dl] the call
    [task.go-dl.dir] splits into [task.go-dl] and [dir], and what
    [DesugarCall] emits is not [(noderef "task.go-dl") | dir]. *)
Lemma DesugarCall_space_counterexample :
  ¬ (∀ (g : Graph) (s p r : string),
       VertexSplit g s = Ok (p, r, true) →
       DesugarCall g s
       = Ok (if String.eqb r EmptyString then noderef p
             else noderef p +:+ " | " +:+ GoStrings.Join " | " (SplitTerms r))).
Proof.
  intros Hclaim.
  specialize (Hclaim build_graph "task.go-dl.dir" "task.go-dl" "dir" eq_refl).
  vm_compute in Hclaim. discriminate Hclaim.
Qed.

(** ** [user.Prepare] *)

(** C10: [Prepare] returns an error exactly when [UID] is set to 2^32-1, or
    [GID] is set to 2^32-1, or [MoveDir] is true while [HomeDir] is empty;
    otherwise it returns the task [NewUser] made with the fields of the
    preparer copied in ([UID] and [GID] printed in decimal when they are
    set), and with the preparer's [State], defaulting to [present]. *)
Theorem Prepare_rejects_exactly (NewUser : user.User) (p : user.Preparer) :
  ((∃ e, (user.Prepare NewUser p).2 = Err e) ↔ rejected p) ∧
  (¬ rejected p →
   let state := if String.eqb (user.State p) EmptyString then "present" else user.State p in
   user.State (user.Prepare NewUser p).1 = state ∧
   (user.Prepare NewUser p).2
   = Ok {| user.uUsername := user.Username p;
           user.uNewUsername := user.NewUsername p;
           user.uUID := match user.UID p with
                        | Some uid => user.Sprintf_v uid
                        | None => user.uUID NewUser
                        end;
           user.uGroupName := user.GroupName p;
           user.uGID := match user.GID p with
                        | Some gid => user.Sprintf_v gid
                        | None => user.uGID NewUser
                        end;
           user.uName := user.Name p;
           user.uHomeDir := user.HomeDir p;
           user.uMoveDir := user.MoveDir p;
           user.uState := state |}).
Proof.
  unfold rejected, user.Prepare.
  destruct p as [un nun uid gn gid nm hd md st]; cbn [user.UID user.GID user.MoveDir
    user.HomeDir user.State user.Username user.NewUsername user.GroupName user.Name].
  assert (Huid : (match uid with Some u => (u =? user.MaxUint32)%N | None => false end) = true
                 ↔ uid = Some user.MaxUint32).
  { destruct uid as [u|]; [|done]. rewrite N.eqb_eq. split; congruence. }
  assert (Hgid : (match gid with Some u => (u =? user.MaxUint32)%N | None => false end) = true
                 ↔ gid = Some user.MaxUint32).
  { destruct gid as [u|]; [|done]. rewrite N.eqb_eq. split; congruence. }
  assert (Hhd : md && String.eqb hd EmptyString = true ↔ md = true ∧ hd = EmptyString).
  { rewrite andb_true_iff, String.eqb_eq. done. }
  destruct (match uid with Some u => (u =? user.MaxUint32)%N | None => false end) eqn:Eu.
  { pose proof (proj1 Huid eq_refl) as Hbad.
    split; [|intros []; by left]. split; [intros _; by left|eauto]. }
  destruct (match gid with Some u => (u =? user.MaxUint32)%N | None => false end) eqn:Eg.
  { pose proof (proj1 Hgid eq_refl) as Hbad.
    split; [|intros []; right; by left]. split; [intros _; right; by left|eauto]. }
  destruct (md && String.eqb hd EmptyString) eqn:Eh.
  { pose proof (proj1 Hhd eq_refl) as Hbad.
    split; [|intros []; right; by right]. split; [intros _; right; by right|eauto]. }
  assert (Hok : ¬ (uid = Some user.MaxUint32 ∨ gid = Some user.MaxUint32
                   ∨ md = true ∧ hd = EmptyString)).
  { intros [H|[H|H]]; [apply Huid in H|apply Hgid in H|apply Hhd in H]; congruence. }
  split.
  - split; [|done]. intros [e He]. exfalso.
    destruct (String.eqb st EmptyString), uid, gid; discriminate He.
  - intros _. cbn zeta.
    destruct (String.eqb st EmptyString), uid, gid; done.
Qed.

(** ** [VertexSplitTraverse] *)

Lemma forChildren_skip (recurse : string → gset string → option (outcome (split_result * gset string)))
    (stop_at : string → bool) (children : list string) (history : gset string) :
  (∀ c, c ∈ children → c ∈ history ∨ stop_at c = true) →
  forChildren recurse stop_at children history = Some (Ok (None, history)).
Proof.
  induction children as [|c children IH]; intros Hskip; [done|]. cbn.
  destruct (Hskip c (list_elem_of_here _ _)) as [Hin|Hstop].
  - rewrite bool_decide_eq_true_2 by done. apply IH. intros c' Hc'. apply Hskip. by right.
  - rewrite Hstop. destruct (bool_decide (c ∈ history));
      apply IH; intros c' Hc'; apply Hskip; by right.
Qed.

(** One call of [VertexSplitTraverse] whose children loop runs to its end. *)
Lemma VertexSplitTraverse_step (fuel : nat) (g : Graph)
    (toFind start : string) (stop : Graph → string → bool) (history history' : gset string) :
  forChildren (λ child h, VertexSplitTraverse fuel g toFind child stop h)
              (stop g) (graph.Children g start) ({[start]} ∪ history)
  = Some (Ok (None, history')) →
  VertexSplitTraverse (S fuel) g toFind start stop history
  = if stop g start then Some (Ok ((EmptyString, toFind, false), history'))
    else match VertexSplit g (graph.SiblingID start toFind) with
         | Ok (vertex, middle, true) => Some (Ok ((vertex, middle, true), history'))
         | _ => VertexSplitTraverse fuel g toFind (graph.ParentID start) stop history'
         end.
Proof.
  intros Hloop. cbn [VertexSplitTraverse]. rewrite Hloop. cbn [fbind].
  destruct (stop g start); [done|].
  destruct (VertexSplit_total g (graph.SiblingID start toFind)) as [[[v m] found] ->].
  cbn [fbind]. by destruct found.
Qed.

(** C5, as the code has it: once the children of the starting vertex are
    exhausted without a match, [VertexSplitTraverse] returns not-found, with
    the name as the remainder, when [stop(start)] holds, and makes no sibling
    attempt; when [stop(start)] does not hold it tries
    [VertexSplit(g, SiblingID(start, name))], returns its match if there is
    one, and else recurses to [ParentID(start)]. *)
Theorem VertexSplitTraverse_after_children (fuel : nat) (g : Graph)
    (toFind start : string) (stop : Graph → string → bool) (history history' : gset string) :
  forChildren (λ child h, VertexSplitTraverse fuel g toFind child stop h)
              (stop g) (graph.Children g start) ({[start]} ∪ history)
  = Some (Ok (None, history')) →
  (stop g start = true →
   VertexSplitTraverse (S fuel) g toFind start stop history
   = Some (Ok ((EmptyString, toFind, false), history')))
  ∧ (stop g start = false →
     ∀ vertex middle,
       VertexSplit g (graph.SiblingID start toFind) = Ok (vertex, middle, true) →
       VertexSplitTraverse (S fuel) g toFind start stop history
       = Some (Ok ((vertex, middle, true), history')))
  ∧ (stop g start = false →
     ∀ vertex middle,
       VertexSplit g (graph.SiblingID start toFind) = Ok (vertex, middle, false) →
       VertexSplitTraverse (S fuel) g toFind start stop history
       = VertexSplitTraverse fuel g toFind (graph.ParentID start) stop history').
Proof.
  intros Hloop. rewrite (VertexSplitTraverse_step _ _ _ _ _ _ _ Hloop).
  split; [by intros ->|].
  split; intros -> vertex middle ->; done.
Qed.

Lemma VertexSplitTraverse_after_children_witness :
  forChildren (λ child h, VertexSplitTraverse 0 sibling_graph "x" child TraverseUntilModule h)
              (TraverseUntilModule sibling_graph)
              (graph.Children sibling_graph "root.a.m") ({[ "root.a.m" ]} ∪ ∅)
  = Some (Ok (None, {[ "root.a.m" ]}))
  ∧ TraverseUntilModule sibling_graph "root.a.m" = true
  ∧ VertexSplitTraverse 1 sibling_graph "x" "root.a.m" TraverseUntilModule ∅
    = Some (Ok ((EmptyString, "x", false), {[ "root.a.m" ]})).
Proof.
  split; [reflexivity|]. split; [reflexivity|].
  apply (VertexSplitTraverse_after_children 0 sibling_graph "x" "root.a.m"
           TraverseUntilModule ∅ {[ "root.a.m" ]}); reflexivity.
Defined.

(** C5, as stated, fails: at the module [root.a.m], whose sibling [root.a.x]
    is a vertex, the children are exhausted and [VertexSplit] of the sibling
    identifier finds [root.a.x], yet [VertexSplitTraverse] returns not-found:
    [stop] holds at the starting vertex and the sibling attempt is not
    made. *)
Lemma VertexSplitTraverse_sibling_counterexample :
  ¬ (∀ (fuel : nat) (g : Graph) (toFind start : string) (stop : Graph → string → bool)
       (history history' : gset string) (vertex middle : string),
       forChildren (λ child h, VertexSplitTraverse fuel g toFind child stop h)
                   (stop g) (graph.Children g start) ({[start]} ∪ history)
       = Some (Ok (None, history')) →
       VertexSplit g (graph.SiblingID start toFind) = Ok (vertex, middle, true) →
       VertexSplitTraverse (S fuel) g toFind start stop history
       = Some (Ok ((vertex, middle, true), history'))).
Proof.
  intros Hclaim.
  specialize (Hclaim 0 sibling_graph "x" "root.a.m" TraverseUntilModule ∅
                {[ "root.a.m" ]} "root.a.x" EmptyString eq_refl eq_refl).
  vm_compute in Hclaim. discriminate Hclaim.
Qed.

Section scope.
Variables m1 x m2 y : VertexValue.
Variable deps : gmap string (list string).
Hypothesis module_m1 : isModule m1 = true.
Hypothesis module_m2 : isModule m2 = true.
Hypothesis resource_x : isModule x = false.
Hypothesis resource_y : isModule y = false.

Let g : Graph := scope_graph m1 x m2 y deps.
Let X : string := "root.m1.file.x".
Let Y : string := "root.m2.file.y".
Let name : string := "file.x.dest".
Let not_found : split_result := (EmptyString, name, false).

Lemma stop_elsewhere (id : string) :
  id ≠ X → id ≠ Y → TraverseUntilModule g id = true.
Proof.
  intros HX HY. unfold TraverseUntilModule, graph.Get.
  destruct (graph.IsRoot id); [done|]. cbn [values g scope_graph].
  destruct (decide (id = "root.m1.module")) as [->|H1].
  { rewrite lookup_insert_eq. by destruct m1. }
  rewrite lookup_insert_ne by done. rewrite lookup_insert_ne by (subst X; done).
  destruct (decide (id = "root.m2.module")) as [->|H2].
  { rewrite lookup_insert_eq. by destruct m2. }
  rewrite lookup_insert_ne by done. rewrite lookup_insert_ne by (subst Y; done).
  done.
Qed.

Lemma continue_at_X : TraverseUntilModule g X = false.
Proof.
  unfold TraverseUntilModule, graph.Get.
  change (graph.IsRoot X) with false. change (values g !! X) with (Some x).
  by destruct x.
Qed.

Lemma continue_at_Y : TraverseUntilModule g Y = false.
Proof.
  unfold TraverseUntilModule, graph.Get.
  change (graph.IsRoot Y) with false. change (values g !! Y) with (Some y).
  by destruct y.
Qed.

Lemma skip_visited (children : list string) (history : gset string) :
  X ∈ history → Y ∈ history →
  ∀ c, c ∈ children → c ∈ history ∨ TraverseUntilModule g c = true.
Proof.
  intros HX HY c _.
  destruct (decide (c = X)) as [->|?]; [by left|].
  destruct (decide (c = Y)) as [->|?]; [by left|].
  right. by apply stop_elsewhere.
Qed.

(** From [root.m1.file.x], with [root.m2.file.y] visited: nothing is found at
    the vertex, and the walk ends at its parent, which is no vertex. *)
Lemma traverse_from_X (fuel : nat) (history : gset string) :
  Y ∈ history →
  ∃ history',
    VertexSplitTraverse (S (S fuel)) g name X TraverseUntilModule history
    = Some (Ok (not_found, history'))
    ∧ history ⊆ history'.
Proof.
  intros HY.
  rewrite (VertexSplitTraverse_step _ _ _ _ _ _ ({[X]} ∪ history));
    [|apply forChildren_skip, skip_visited; set_solver].
  rewrite continue_at_X.
  change (VertexSplit g (graph.SiblingID X name))
    with (@Ok split_result (EmptyString, "root.m1.file.file.x.dest", false)).
  cbn match. change (graph.ParentID X) with "root.m1.file".
  rewrite (VertexSplitTraverse_step _ _ _ _ _ _
             ({[ "root.m1.file" ]} ∪ ({[X]} ∪ history)));
    [|apply forChildren_skip, skip_visited; set_solver].
  rewrite stop_elsewhere by done.
  eexists. split; [done|]. set_solver.
Qed.

(** A children loop with [root.m2.file.y] visited finds nothing. *)
Lemma children_find_nothing (fuel : nat) (children : list string) (history : gset string) :
  Y ∈ history →
  ∃ history',
    forChildren (λ child h, VertexSplitTraverse (S (S fuel)) g name child
                              TraverseUntilModule h)
                (TraverseUntilModule g) children history
    = Some (Ok (None, history'))
    ∧ history ⊆ history'.
Proof.
  revert history. induction children as [|c children IH]; intros history HY.
  { exists history. done. }
  cbn [forChildren]. case_bool_decide as Hin; [by apply IH|].
  destruct (TraverseUntilModule g c) eqn:Hstop; [by apply IH|].
  assert (c = X) as ->.
  { destruct (decide (c = X)) as [|HnX]; [done|].
    destruct (decide (c = Y)) as [->|HnY]; [done|].
    rewrite stop_elsewhere in Hstop by done. done. }
  destruct (traverse_from_X fuel history HY) as (h1 & -> & Hsub).
  cbn [fbind not_found]. destruct (IH h1) as (h2 & -> & Hsub2); [set_solver|].
  exists h2. split; [done|]. set_solver.
Qed.

Lemma traverse_from_Y (fuel : nat) :
  ∃ history',
    VertexSplitTraverse (4 + fuel) g name Y TraverseUntilModule ∅
    = Some (Ok (not_found, history')).
Proof.
  destruct (children_find_nothing (S fuel) (graph.Children g Y)
              ({[Y]} ∪ ∅)) as (h1 & Hloop & Hsub); [set_solver|].
  cbn [Nat.add].
  rewrite (VertexSplitTraverse_step _ _ _ _ _ _ h1) by done.
  rewrite continue_at_Y.
  change (VertexSplit g (graph.SiblingID Y name))
    with (@Ok split_result (EmptyString, "root.m2.file.file.x.dest", false)).
  cbn match. change (graph.ParentID Y) with "root.m2.file".
  destruct (children_find_nothing fuel (graph.Children g "root.m2.file")
              ({[ "root.m2.file" ]} ∪ h1)) as (h2 & Hloop2 & Hsub2); [set_solver|].
  rewrite (VertexSplitTraverse_step _ _ _ _ _ _ h2) by done.
  rewrite stop_elsewhere by done. by exists h2.
Qed.

End scope.

(** C2: in the graph with the vertices [root.m1.module], [root.m1.file.x],
    [root.m2.module] and [root.m2.file.y], of which the first and the third
    are modules and the others are not, whatever the dependency edges are,
    [VertexSplitTraverse] for [file.x.dest] from [root.m2.file.y] with
    [TraverseUntilModule] returns not-found (it does not find
    [root.m1.file.x]), and the resolution fails with [MissingVertex]. *)
Theorem lexical_scope_blocks_other_module (m1 x m2 y : VertexValue)
    (deps : gmap string (list string)) (fuel : nat) :
  isModule m1 = true → isModule m2 = true →
  isModule x = false → isModule y = false →
  (∃ history,
     VertexSplitTraverse (4 + fuel) (scope_graph m1 x m2 y deps) "file.x.dest"
                         "root.m2.file.y" TraverseUntilModule ∅
     = Some (Ok ((EmptyString, "file.x.dest", false), history)))
  ∧ resolve (4 + fuel) (scope_graph m1 x m2 y deps) "file.x.dest" "root.m2.file.y"
    = Some (Err (ErrMissingVertex "file.x.dest")).
Proof.
  intros Hm1 Hm2 Hx Hy.
  destruct (traverse_from_Y m1 x m2 y deps Hm1 Hm2 Hx Hy fuel) as [h Hh].
  split; [by exists h|]. unfold resolve. by rewrite Hh.
Qed.

Lemma lexical_scope_blocks_other_module_witness :
  isModule (ParseNode "module") = true ∧ isModule ModuleTask = true
  ∧ isModule (OtherValue "file.content") = false
  ∧ resolve 4 (scope_graph (ParseNode "module") (OtherValue "file.content")
                           ModuleTask (OtherValue "file.content")
                           {[ "root.m2.file.y" := ["root.m1.module"; "root.m1.file.x"] ]})
            "file.x.dest" "root.m2.file.y"
    = Some (Err (ErrMissingVertex "file.x.dest")).
Proof.
  repeat (split; [reflexivity|]).
  apply (lexical_scope_blocks_other_module (ParseNode "module") (OtherValue "file.content")
           ModuleTask (OtherValue "file.content")
           {[ "root.m2.file.y" := ["root.m1.module"; "root.m1.file.x"] ]} 0); reflexivity.
Defined.

(** ** Loops over Go maps

    A loop body that commutes with itself at distinct keys gives the same
    result in every order of iteration. *)

Lemma rangeOver_any_order {A B} (f : string → A → B → B) (b : B) (m : gmap string A)
    (l : list (string * A)) :
  (∀ k1 a1 k2 a2 b, k1 ≠ k2 → f k1 a1 (f k2 a2 b) = f k2 a2 (f k1 a1 b)) →
  l ≡ₚ map_to_list m →
  rangeOver f l b = map_fold f b m.
Proof.
  intros Hcomm Hperm. unfold rangeOver.
  rewrite <-(fold_left_rev_right (λ kv b, f kv.1 kv.2 b)), map_fold_foldr.
  assert (Hnodup : NoDup (rev l).*1).
  { rewrite <-reverse_Permutation in Hperm. unfold reverse in Hperm.
    rewrite rev_alt, Hperm. apply NoDup_fst_map_to_list. }
  assert (Hperm' : rev l ≡ₚ map_to_list m).
  { by rewrite rev_alt, <-Hperm, (reverse_Permutation l). }
  transitivity (foldr (λ kv b, f kv.1 kv.2 b) b (map_to_list m)).
  - apply (foldr_permutation (=)); [by intros x ?? ->| |done].
    intros j1 [k1 a1] j2 [k2 a2] b' Hj H1 H2. cbn [fst snd]. apply Hcomm. intros <-.
    apply Hj. eapply (NoDup_lookup _ j1 j2 k1 Hnodup); by rewrite list_lookup_fmap, ?H1, ?H2.
  - by apply foldr_ext; [intros [k a] b'|..].
Qed.

Lemma fmaps_eq (st st' : fmaps) :
  results st = results st' → embeddedRefs st = embeddedRefs st' →
  unembeddedRefs st = unembeddedRefs st' → st = st'.
Proof. destruct st, st'. cbn. by intros -> -> ->. Qed.

Lemma countEmbedded_comm (k1 : string) (v1 : Value) (k2 : string) (v2 : Value) (st : fmaps) :
  k1 ≠ k2 →
  countEmbedded k1 v1 (countEmbedded k2 v2 st) = countEmbedded k2 v2 (countEmbedded k1 v1 st).
Proof.
  intros Hne. unfold countEmbedded. cbn [results embeddedRefs unembeddedRefs].
  apply fmaps_eq; cbn [results embeddedRefs unembeddedRefs]; [| |done].
  - destruct (results st !! k1) eqn:H1, (results st !! k2) eqn:H2;
      rewrite ?lookup_insert_ne, ?H1, ?H2 by done; try done.
    by apply insert_insert_ne.
  - destruct (embeddedRefs st !! k1) eqn:H1, (embeddedRefs st !! k2) eqn:H2;
      rewrite ?lookup_insert_ne, ?H1, ?H2 by done; by apply insert_insert_ne.
Qed.

Lemma resolveRef_comm (fields : list (string * bool * Value)) (unembedded : gmap string nat)
    (k1 : string) (c1 : nat) (k2 : string) (c2 : nat) (res : outcome (gmap string Value)) :
  k1 ≠ k2 →
  resolveRef fields unembedded k1 c1 (resolveRef fields unembedded k2 c2 res)
  = resolveRef fields unembedded k2 c2 (resolveRef fields unembedded k1 c1 res).
Proof.
  intros Hne. unfold resolveRef. destruct res as [m| |]; cbn [obind]; try done.
  destruct (c1 <=? 1)%nat, (c2 <=? 1)%nat; cbn [obind]; try done.
  - by destruct (unembedded !! k2) as [i2|]; [destruct (fields !! i2) as [[[? ?] ?]|]|].
  - by destruct (unembedded !! k1) as [i1|]; [destruct (fields !! i1) as [[[? ?] ?]|]|].
  - destruct (unembedded !! k1) as [i1|], (unembedded !! k2) as [i2|];
      repeat match goal with
             | |- context [fields !! ?i] => destruct (fields !! i) as [[[? ?] ?]|]
             end; cbn [obind]; try done; f_equal.
    + by apply insert_insert_ne.
    + symmetry. by apply delete_insert_ne.
    + by apply delete_insert_ne.
    + by apply delete_delete.
Qed.

(** The two loops of [FieldMap] over a map give what the embedding computes
    in whatever order Go runs them. *)
Lemma FieldMap_loops_any_order :
  (∀ st inner l, l ≡ₚ map_to_list inner →
     rangeOver countEmbedded l st = map_fold countEmbedded st inner)
  ∧ (∀ fields unembedded res embedded l, l ≡ₚ map_to_list embedded →
       rangeOver (resolveRef fields unembedded) l res
       = map_fold (resolveRef fields unembedded) res embedded).
Proof.
  split; intros; apply rangeOver_any_order; try done.
  - intros. by apply countEmbedded_comm.
  - intros. by apply resolveRef_comm.
Qed.

(** ** [FieldMap] *)

(** [indirect] is the dereferencing loop of [FieldMap]: it steps with
    [Elem] while [indirectStruct] holds, and stops where it does not. *)
Lemma indirect_loop (val : Value) :
  indirect val
  = (if indirectStruct val
     then match Elem val with
          | Ok v => indirect v
          | _ => val
          end
     else val)
  ∧ indirectStruct (indirect val) = false.
Proof.
  induction val as [| | | |k tn isnil| |v [_ IH]| |v [_ IH]|tn fields];
    try (split; reflexivity); try (split; [reflexivity|exact IH]).
  by destruct k.
Qed.

Lemma FieldMapFrom_indirect (val : Value) :
  FieldMapFrom false val
  = match indirect val with
    | StructV tname fields => FieldMapFrom true (StructV tname fields)
    | _ => Panic
    end.
Proof. induction val; try done. Qed.

Lemma forFields_ext (emb emb' : Value → outcome (gmap string Value))
    (fields : list (string * bool * Value)) (idx : nat) (st : fmaps) :
  (∀ v, emb v = emb' v) → forFields emb fields idx st = forFields emb' fields idx st.
Proof.
  intros Hext. revert idx st.
  induction fields as [|[[name anonymous] field] fields IH]; intros idx st; [done|].
  cbn [forFields]. destruct anonymous; [|apply IH].
  destruct (nilValue field) as [[|]| |]; cbn [obind]; [apply IH| |done|done].
  rewrite Hext. destruct (if exported name then emb' field else Panic); cbn [obind];
    [apply IH|done|done].
Qed.

Lemma FieldMap_struct (tname : string) (fields : list (string * bool * Value)) :
  FieldMap (StructV tname fields) = structFields fields.
Proof.
  unfold FieldMap, structFields. cbn [FieldMapFrom].
  erewrite forFields_ext; [done|]. intros v. by destruct v.
Qed.

(** [FieldMap] in the shape of the source: the nil test, the dereferencing
    loop, then the loops over the fields of the struct the loop ended at
    ([val.Type().NumField()] panics when it is not a struct). *)
Lemma FieldMap_unfold (obj : Value) :
  FieldMap obj
  = (isnil ←? nilValue obj;
     if isnil then Ok ∅
     else match indirect obj with
          | StructV _ fields => structFields fields
          | _ => Panic
          end).
Proof.
  destruct obj as [| | | |k tn isnil| |v| |v|tn fields]; try reflexivity.
  - unfold FieldMap. cbn [FieldMapFrom nilValue canBeNil ValueKind IsNil obind indirect].
    rewrite FieldMapFrom_indirect. destruct (indirect v); try done. apply FieldMap_struct.
  - unfold FieldMap. cbn [FieldMapFrom nilValue canBeNil ValueKind IsNil obind indirect].
    rewrite FieldMapFrom_indirect. destruct (indirect v); try done. apply FieldMap_struct.
  - apply FieldMap_struct.
Qed.

Lemma FieldMap_indirect_struct (obj : Value) (tname : string)
    (fields : list (string * bool * Value)) :
  indirect obj = StructV tname fields → FieldMap obj = structFields fields.
Proof.
  intros Hind. rewrite FieldMap_unfold, Hind.
  destruct obj; try done; cbn in Hind; by destruct isnil.
Qed.

(** The loop over the field map of an embedded field: a name is added to
    [results] where [results] does not have it, and counted. *)
Lemma countEmbedded_fold (st : fmaps) (inner : gmap string Value) (n : string) :
  results (map_fold countEmbedded st inner) !! n
  = match results st !! n with
    | Some v => Some v
    | None => inner !! n
    end
  ∧ embeddedRefs (map_fold countEmbedded st inner) !! n
    = match inner !! n with
      | Some _ => Some (default 0 (embeddedRefs st !! n) + 1)
      | None => embeddedRefs st !! n
      end
  ∧ unembeddedRefs (map_fold countEmbedded st inner) = unembeddedRefs st.
Proof.
  apply (map_fold_weak_ind (λ st' inner,
    results st' !! n = match results st !! n with
                       | Some v => Some v
                       | None => inner !! n
                       end
    ∧ embeddedRefs st' !! n
      = match inner !! n with
        | Some _ => Some (default 0 (embeddedRefs st !! n) + 1)
        | None => embeddedRefs st !! n
        end
    ∧ unembeddedRefs st' = unembeddedRefs st)).
  { rewrite lookup_empty. by destruct (results st !! n). }
  intros i x m r Hnone (Hres & Hemb & Hun). unfold countEmbedded.
  cbn [results embeddedRefs unembeddedRefs]. split; [|split; [|done]].
  - destruct (decide (i = n)) as [->|Hne].
    + rewrite Hnone in Hres. rewrite lookup_insert_eq.
      destruct (results st !! n) as [v|]; rewrite Hres; [done|].
      by rewrite lookup_insert_eq.
    + rewrite (lookup_insert_ne m) by done. rewrite <-Hres.
      destruct (results r !! i); [done|]. by rewrite lookup_insert_ne.
  - destruct (decide (i = n)) as [->|Hne].
    + rewrite Hnone in Hemb. rewrite lookup_insert_eq, <-Hemb.
      destruct (embeddedRefs r !! n); by rewrite lookup_insert_eq.
    + rewrite (lookup_insert_ne m) by done. rewrite <-Hemb.
      destruct (embeddedRefs r !! i); by rewrite lookup_insert_ne.
Qed.

Section forFields_facts.
Variable emb : Value → outcome (gmap string Value).
Variable n : string.

(** One step of the loop, for a field whose name is not [n]: [results] keeps
    what it has at [n], and [unembeddedRefs] is unchanged at [n]. *)
Lemma forFields_unembedded_other (fields : list (string * bool * Value)) (idx : nat)
    (st st' : fmaps) :
  forFields emb fields idx st = Ok st' →
  (∀ v, (n, false, v) ∉ fields) →
  unembeddedRefs st' !! n = unembeddedRefs st !! n.
Proof.
  revert idx st. induction fields as [|[[name anonymous] field] fields IH];
    intros idx st Hrun Hnot; [by simplify_eq/=|].
  assert (Hrest : ∀ v, (n, false, v) ∉ fields).
  { intros v Hin. apply (Hnot v). by right. }
  cbn [forFields] in Hrun. destruct anonymous.
  - destruct (nilValue field) as [[|]| |]; cbn [obind] in Hrun; try done.
    + by rewrite (IH _ _ Hrun Hrest).
    + destruct (if exported name then emb field else Panic) as [inner| |];
        cbn [obind] in Hrun; try done.
      rewrite (IH _ _ Hrun Hrest). cbn [unembeddedRefs].
      by destruct (countEmbedded_fold st inner n) as (_ & _ & ->).
  - rewrite (IH _ _ Hrun Hrest). cbn [unembeddedRefs].
    apply lookup_insert_ne. intros ->. apply (Hnot field). by left.
Qed.

Lemma forFields_results_keep (fields : list (string * bool * Value)) (idx : nat)
    (st st' : fmaps) (v : Value) :
  forFields emb fields idx st = Ok st' →
  (∀ a w, (n, a, w) ∉ fields) →
  results st !! n = Some v →
  results st' !! n = Some v.
Proof.
  revert idx st. induction fields as [|[[name anonymous] field] fields IH];
    intros idx st Hrun Hnot Hres; [by simplify_eq/=|].
  assert (Hrest : ∀ a w, (n, a, w) ∉ fields).
  { intros a w Hin. apply (Hnot a w). by right. }
  assert (Hname : name ≠ n).
  { intros ->. apply (Hnot anonymous field). by left. }
  cbn [forFields] in Hrun. destruct anonymous.
  - destruct (nilValue field) as [[|]| |]; cbn [obind] in Hrun; try done.
    + apply (IH _ _ Hrun Hrest). cbn [results]. by rewrite lookup_insert_ne.
    + destruct (if exported name then emb field else Panic) as [inner| |];
        cbn [obind] in Hrun; try done.
      apply (IH _ _ Hrun Hrest). cbn [results]. rewrite lookup_insert_ne by done.
      destruct (countEmbedded_fold st inner n) as (-> & _ & _). by rewrite Hres.
  - apply (IH _ _ Hrun Hrest). cbn [results]. by rewrite lookup_insert_ne.
Qed.

(** The field named [n] that the record declares, when no other field has
    that name: [results] and [unembeddedRefs] end with it. *)
Lemma forFields_declared (fields : list (string * bool * Value)) (idx : nat)
    (st st' : fmaps) (i : nat) (v : Value) :
  forFields emb fields idx st = Ok st' →
  fields !! i = Some (n, false, v) →
  (∀ j a w, fields !! j = Some (n, a, w) → j = i) →
  unembeddedRefs st' !! n = Some (idx + i) ∧ results st' !! n = Some v.
Proof.
  revert idx st i. induction fields as [|[[name anonymous] field] fields IH];
    intros idx st i Hrun Hi Huniq; [done|].
  destruct i as [|i].
  - simplify_eq/=. rename Hrun into Hrest.
    assert (Hnone : ∀ a w, (n, a, w) ∉ fields).
    { intros a w [j Hj]%list_elem_of_lookup. by specialize (Huniq (S j) a w Hj). }
    split.
    + rewrite (forFields_unembedded_other _ _ _ _ Hrest (Hnone false)).
      cbn [unembeddedRefs]. rewrite lookup_insert_eq. f_equal. lia.
    + apply (forFields_results_keep _ _ _ _ _ Hrest Hnone).
      cbn [results]. by rewrite lookup_insert_eq.
  - assert (Huniq' : ∀ j a w, fields !! j = Some (n, a, w) → j = i).
    { intros j a w Hj. specialize (Huniq (S j) a w Hj). lia. }
    cbn [lookup list_lookup] in Hi.
    replace (idx + S i) with ((idx + 1) + i) by lia.
    cbn [forFields] in Hrun. destruct anonymous.
    + destruct (nilValue field) as [[|]| |]; cbn [obind] in Hrun; try done.
      * by apply (IH _ _ _ Hrun).
      * destruct (if exported name then emb field else Panic) as [inner| |];
          cbn [obind] in Hrun; try done.
        by apply (IH _ _ _ Hrun).
    + by apply (IH _ _ _ Hrun).
Qed.

End forFields_facts.

Lemma appears_in_nil (n name : string) (field : Value) :
  nilValue field = Ok true → appears_in n (name, true, field) = false.
Proof.
  destruct field as [| | | |k tn isnil| |v| |v|tn fields]; try done.
  destruct k, isnil; try done.
Qed.

(** [embeddedRefs] counts, for each name, the embedded records in which it
    appears. *)
Lemma forFields_counts (n : string) (fields : list (string * bool * Value)) (idx : nat)
    (st st' : fmaps) :
  forFields (λ field, FieldMap (viaInterface field)) fields idx st = Ok st' →
  default 0 (embeddedRefs st' !! n)
  = default 0 (embeddedRefs st !! n) + embedded_occurrences n fields.
Proof.
  revert idx st. induction fields as [|[[name anonymous] field] fields IH];
    intros idx st Hrun; [simplify_eq/=; lia|].
  cbn [forFields] in Hrun. cbn [embedded_occurrences]. destruct anonymous.
  - destruct (nilValue field) as [[|]| |] eqn:Hnil; cbn [obind] in Hrun; try done.
    + rewrite (IH _ _ Hrun), appears_in_nil by done. cbn [embeddedRefs]. lia.
    + destruct (exported name); [|done].
      destruct (FieldMap (viaInterface field)) as [inner| |] eqn:Hinner;
        cbn [obind] in Hrun; try done.
      rewrite (IH _ _ Hrun). cbn [embeddedRefs appears_in andb]. rewrite Hinner.
      destruct (countEmbedded_fold st inner n) as (_ & -> & _).
      case_bool_decide as Hsome.
      * destruct Hsome as [w ->]. cbn. lia.
      * apply eq_None_not_Some in Hsome as ->. lia.
  - rewrite (IH _ _ Hrun). cbn [embeddedRefs appears_in andb]. lia.
Qed.

(** The loop over [embeddedRefs]: a name counted twice or more is bound to
    the field the record declares, or removed when it declares none; the
    other names are left as they are. *)
Lemma resolveRef_fold (fields : list (string * bool * Value))
    (unembedded : gmap string nat) (res : gmap string Value)
    (embedded : gmap string nat) (m : gmap string Value) (n : string) :
  map_fold (resolveRef fields unembedded) (Ok res) embedded = Ok m →
  m !! n = match embedded !! n with
           | Some count =>
               if (count <=? 1)%nat then res !! n
               else idx ← unembedded !! n; snd <$> fields !! idx
           | None => res !! n
           end.
Proof.
  revert m. apply (map_fold_weak_ind (λ r embedded, ∀ m, r = Ok m →
    m !! n = match embedded !! n with
             | Some count =>
                 if (count <=? 1)%nat then res !! n
                 else idx ← unembedded !! n; snd <$> fields !! idx
             | None => res !! n
             end)).
  { intros m [= <-]. by rewrite lookup_empty. }
  intros ref count emb' r Hnone IH m Hstep. unfold resolveRef in Hstep.
  destruct r as [m0| |]; cbn [obind] in Hstep; try done.
  specialize (IH m0 eq_refl).
  destruct (decide (ref = n)) as [->|Hne].
  - rewrite lookup_insert_eq. rewrite Hnone in IH.
    destruct (count <=? 1)%nat; [by simplify_eq|].
    destruct (unembedded !! n) as [idx|]; cbn [mbind option_bind].
    + destruct (fields !! idx) as [[[x a] field]|]; [|done].
      simplify_eq. by rewrite lookup_insert_eq.
    + simplify_eq. by rewrite lookup_delete_eq.
  - rewrite lookup_insert_ne by done. rewrite <-IH.
    destruct (count <=? 1)%nat; [by simplify_eq|].
    destruct (unembedded !! ref) as [idx|].
    + destruct (fields !! idx) as [[[x a] field]|]; [|done].
      simplify_eq. by rewrite lookup_insert_ne.
    + simplify_eq. by rewrite lookup_delete_ne.
Qed.

Lemma FieldMap_declared_wins (obj : Value) (tname : string)
    (fields : list (string * bool * Value)) (m : gmap string Value)
    (n : string) (i : nat) (v : Value) :
  indirect obj = StructV tname fields →
  FieldMap obj = Ok m →
  fields !! i = Some (n, false, v) →
  (∀ j a w, fields !! j = Some (n, a, w) → j = i) →
  m !! n = Some v.
Proof.
  intros Hind Hmap Hi Huniq.
  rewrite (FieldMap_indirect_struct _ _ _ Hind) in Hmap. unfold structFields in Hmap.
  destruct (forFields _ fields 0 _) as [st| |] eqn:Hrun; cbn [obind] in Hmap; try done.
  destruct (forFields_declared _ n _ _ _ _ i v Hrun Hi Huniq) as [Hun Hres].
  change (0 + i) with i in Hun.
  rewrite (resolveRef_fold _ _ _ _ _ n Hmap), Hun, Hres. cbn [mbind option_bind].
  rewrite Hi. cbn. by destruct (embeddedRefs st !! n) as [c|]; [destruct (c <=? 1)%nat|].
Qed.

Lemma FieldMap_ambiguous_removed (obj : Value) (tname : string)
    (fields : list (string * bool * Value)) (m : gmap string Value) (n : string) :
  indirect obj = StructV tname fields →
  FieldMap obj = Ok m →
  ¬ declares n fields →
  2 ≤ embedded_occurrences n fields →
  m !! n = None.
Proof.
  intros Hind Hmap Hnot Htwo.
  rewrite (FieldMap_indirect_struct _ _ _ Hind) in Hmap. unfold structFields in Hmap.
  destruct (forFields _ fields 0 _) as [st| |] eqn:Hrun; cbn [obind] in Hmap; try done.
  pose proof (forFields_counts n _ _ _ _ Hrun) as Hcount.
  cbn [embeddedRefs] in Hcount. rewrite lookup_empty in Hcount. cbn in Hcount.
  assert (Hun : unembeddedRefs st !! n = None).
  { rewrite (forFields_unembedded_other _ n _ _ _ _ Hrun); [done|].
    intros v Hin. apply Hnot. by exists v. }
  rewrite (resolveRef_fold _ _ _ _ _ n Hmap), Hun.
  destruct (embeddedRefs st !! n) as [c|]; cbn in Hcount; [|lia].
  destruct (Nat.leb_spec c 1); [lia|done].
Qed.

(** C3: for a record (reached through any pointers) whose field map is
    [m]: a field the record declares itself is bound in [m] to that field,
    whatever its embedded records hold (field names are unique in a Go
    struct, which is the side condition); a name that appears in two or more
    embedded records and that the record does not declare is not in [m].  For
    [Outer{ Name; E1{ Shared; A }; E2{ Shared; B } }] the map exposes [name],
    [a] and [b] and not [shared]; with [Shared] added to [Outer], [shared]
    is back, bound to the field of [Outer]. *)
Theorem FieldMap_flattening :
  (∀ obj tname fields m n i v,
     indirect obj = StructV tname fields →
     FieldMap obj = Ok m →
     fields !! i = Some (n, false, v) →
     (∀ j a w, fields !! j = Some (n, a, w) → j = i) →
     m !! n = Some v)
  ∧ (∀ obj tname fields m n,
       indirect obj = StructV tname fields →
       FieldMap obj = Ok m →
       ¬ declares n fields →
       2 ≤ embedded_occurrences n fields →
       m !! n = None)
  ∧ (∃ m, FieldMap Outer = Ok m
          ∧ (lookupMap m).1 !! "name" = Some "Name"
          ∧ (lookupMap m).1 !! "a" = Some "A"
          ∧ (lookupMap m).1 !! "b" = Some "B"
          ∧ (lookupMap m).1 !! "shared" = None
          ∧ m !! "A" = Some (Str "a") ∧ m !! "B" = Some (Str "b"))
  ∧ (∃ m, FieldMap OuterShared = Ok m
          ∧ (lookupMap m).1 !! "shared" = Some "Shared"
          ∧ m !! "Shared" = Some (Str "of Outer")).
Proof.
  split; [apply FieldMap_declared_wins|]. split; [apply FieldMap_ambiguous_removed|].
  split.
  - eexists. split; [vm_compute; reflexivity|]. repeat split; vm_compute; reflexivity.
  - eexists. split; [vm_compute; reflexivity|]. repeat split; vm_compute; reflexivity.
Qed.

(** The name of an embedded record is not in [unembeddedRefs]: when two
    other embedded records have a field of that name, the loop over
    [embeddedRefs] removes it from the map. *)
Example FieldMap_embedded_name_removed :
  ∃ m, FieldMap OuterX = Ok m ∧ m !! "X" = None ∧ m !! "V" = Some (Str "v").
Proof. eexists. split; [vm_compute; reflexivity|]. split; vm_compute; reflexivity. Qed.

(** ** [EvalTerms] *)

Lemma lookupMap_keys (fm : gmap string Value) (l : string) :
  (∀ k, (lookupMap fm).1 !! l = Some k → is_Some (fm !! k) ∧ GoStrings.ToLower k = l)
  ∧ ((∃ k, is_Some (fm !! k) ∧ GoStrings.ToLower k = l) → is_Some ((lookupMap fm).1 !! l)).
Proof.
  unfold lookupMap. cbn [fst].
  apply (map_fold_weak_ind (λ (keys : gmap string string) (fm : gmap string Value),
    (∀ k, keys !! l = Some k → is_Some (fm !! k) ∧ GoStrings.ToLower k = l)
    ∧ ((∃ k, is_Some (fm !! k) ∧ GoStrings.ToLower k = l) → is_Some (keys !! l)))).
  { split; [by intros k; rewrite lookup_empty|].
    intros (k & Hk & _). rewrite lookup_empty in Hk. by destruct Hk. }
  intros i x m keys Hnone [IHa IHb]. split.
  - intros k. destruct (decide (GoStrings.ToLower i = l)) as [<-|Hne].
    + rewrite lookup_insert_eq. intros [= <-]. by rewrite lookup_insert_eq.
    + rewrite lookup_insert_ne by done. intros [Hk Hl]%IHa. split; [|done].
      rewrite lookup_insert_ne; [done|]. by intros ->.
  - intros (k & Hk & Hl). destruct (decide (GoStrings.ToLower i = l)) as [<-|Hne].
    + by rewrite lookup_insert_eq.
    + rewrite lookup_insert_ne by done. apply IHb. exists k. split; [|done].
      rewrite lookup_insert_ne in Hk; [done|]. by intros ->.
Qed.

Lemma rangeKeys_lookupMap (fm : gmap string Value) (x : string) :
  x ∈ rangeKeys (lookupMap fm).1 ↔ ∃ k, is_Some (fm !! k) ∧ x = GoStrings.ToLower k.
Proof.
  unfold rangeKeys. rewrite list_elem_of_fmap. split.
  - intros ([x' k] & -> & Hin%elem_of_map_to_list). cbn.
    apply lookupMap_keys in Hin as [Hk Hl]. by exists k.
  - intros (k & Hk & ->).
    destruct (proj2 (lookupMap_keys fm (GoStrings.ToLower k))) as [k' Hk']; [by exists k|].
    exists (GoStrings.ToLower k, k'). split; [done|]. by apply elem_of_map_to_list.
Qed.

Lemma lookup_keys_fold (l : list (string * Value)) (x : string) :
  let keys : gmap string string :=
    fold_left (λ (b : gmap string string) (kv : string * Value),
                 <[GoStrings.ToLower kv.1 := kv.1]> b) l ∅ in
  (∀ k, keys !! x = Some k → (∃ v, (k, v) ∈ l) ∧ GoStrings.ToLower k = x)
  ∧ ((∃ k v, (k, v) ∈ l ∧ GoStrings.ToLower k = x) → is_Some (keys !! x)).
Proof.
  cbn zeta. induction l as [|[k0 v0] l [IHa IHb]] using rev_ind.
  { cbn [fold_left]. split; [by intros k; rewrite lookup_empty|].
    intros (k & v & Hv & _). by apply elem_of_nil in Hv. }
  rewrite fold_left_app. cbn [fold_left fst].
  destruct (decide (GoStrings.ToLower k0 = x)) as [<-|Hne].
  - rewrite lookup_insert_eq. split; [|done]. intros k [= <-]. split; [|done].
    exists v0. apply elem_of_app. right. apply list_elem_of_here.
  - rewrite lookup_insert_ne by done. split.
    + intros k [[v Hv] Hl]%IHa. split; [|done]. exists v. apply elem_of_app. by left.
    + intros (k & v & Hv & Hl). apply IHb.
      apply elem_of_app in Hv as [Hv|Hv%list_elem_of_singleton]; [by exists k, v|].
      simplify_eq.
Qed.

(** The keys [lookupMap] builds answer as [lookupMap_keys] says in whatever
    order Go ranges over the source map: which of two names that differ by
    case only a lower-cased name is bound to depends on the order, that it is
    bound to one of them does not. *)
Lemma lookupMap_any_order (src : gmap string Value) (l : list (string * Value)) (x : string) :
  l ≡ₚ map_to_list src →
  let keys : gmap string string :=
    rangeOver (λ k (_ : Value) (keys : gmap string string),
                 <[GoStrings.ToLower k := k]> keys) l ∅ in
  (∀ k, keys !! x = Some k → is_Some (src !! k) ∧ GoStrings.ToLower k = x)
  ∧ ((∃ k, is_Some (src !! k) ∧ GoStrings.ToLower k = x) → is_Some (keys !! x)).
Proof.
  intros Hperm. cbn zeta. unfold rangeOver.
  assert (Hin : ∀ k v, (k, v) ∈ l ↔ src !! k = Some v).
  { intros k v. by rewrite Hperm, elem_of_map_to_list. }
  destruct (lookup_keys_fold l x) as [Ha Hb]. split.
  - intros k [[v Hv] Hl]%Ha. split; [|done]. exists v. by apply Hin.
  - intros (k & [v Hv] & Hl). apply Hb. exists k, v. split; [|done]. by apply Hin.
Qed.

(** [EvalTerms] is a left fold: evaluating [ts1 ++ ts2] is evaluating [ts1]
    and then [ts2] from the value reached. *)
Lemma EvalTerms_app (obj : Value) (ts1 ts2 : list string) :
  EvalTerms obj (ts1 ++ ts2) = (v ←? EvalTerms obj ts1; EvalTerms v ts2).
Proof.
  revert obj. induction ts1 as [|t ts1 IH]; intros obj; [done|].
  cbn [app EvalTerms]. destruct (FieldMap obj) as [fm| |]; cbn [obind]; try done.
  destruct (lookupMap fm) as [keys fieldMap]. destruct (keys !! _) as [key|]; [|done].
  destruct (fieldMap !! key) as [val|]; [|done].
  destruct (_ && _); [done|]. destruct (exported key); [apply IH|done].
Qed.

Lemma EvalTerms_nil_field (cur : Value) (fm : gmap string Value) (t : string)
    (rest : list string) :
  FieldMap cur = Ok fm →
  (∃ k, is_Some (fm !! k) ∧ GoStrings.ToLower k = GoStrings.ToLower t) →
  (∀ k v, fm !! k = Some v → GoStrings.ToLower k = GoStrings.ToLower t →
          ∃ tname, v = NilPtr tname) →
  EvalTerms cur (t :: rest) = Err ErrUnresolvable.
Proof.
  intros Hfm Hsome Hnil. cbn [EvalTerms]. rewrite Hfm. cbn [obind].
  destruct (lookupMap_keys fm (GoStrings.ToLower t)) as [Ha Hb].
  destruct (Hb Hsome) as [key Hkey]. specialize (Ha key Hkey) as [[v Hv] Hl].
  unfold lookupMap in *. cbn [fst] in Hkey. rewrite Hkey, Hv.
  destruct (Hnil key v Hv Hl) as [tname ->]. done.
Qed.

Lemma EvalTerms_missing_field (cur : Value) (fm : gmap string Value) (t : string)
    (rest : list string) :
  FieldMap cur = Ok fm →
  (∀ k, is_Some (fm !! k) → GoStrings.ToLower k ≠ GoStrings.ToLower t) →
  EvalTerms cur (t :: rest)
  = Err (ErrNoDefinedField (TypeName cur) (GoStrings.ToLower t) (rangeKeys (lookupMap fm).1)).
Proof.
  intros Hfm Hnone. cbn [EvalTerms]. rewrite Hfm. cbn [obind].
  destruct (lookupMap_keys fm (GoStrings.ToLower t)) as [Ha _].
  unfold lookupMap in *. cbn [fst] in *.
  destruct (map_fold _ ∅ fm !! GoStrings.ToLower t) as [key|] eqn:Hkey; [|done].
  destruct (Ha key eq_refl) as [Hk Hl]. by apply Hnone in Hk.
Qed.


(** ** Types as cache keys *)

Lemma type_eqb_eq (t u : GoType) : type_eqb t u = true → t = u.
Proof.
  revert t u. fix IH 1.
  intros [k n|e|n fs] [k' n'|e'|n' fs']; cbn [type_eqb]; try done.
  - intros [Hk Hn]%andb_prop. apply bool_decide_eq_true in Hk as ->.
    by apply String.eqb_eq in Hn as ->.
  - intros He. f_equal. by apply IH.
  - intros [Hn Hfs]%andb_prop. apply String.eqb_eq in Hn as ->. f_equal.
    revert fs' Hfs.
    induction fs as [|[[x a] ft] fs IHfs]; intros [|[[x' a'] ft'] fs'] Hfs; try done.
    apply andb_prop in Hfs as [Hfs Hrest]. apply andb_prop in Hfs as [Hfs Hft].
    apply andb_prop in Hfs as [Hx Ha].
    apply String.eqb_eq in Hx as ->. apply Bool.eqb_prop in Ha as ->.
    apply IH in Hft as ->. f_equal. by apply IHfs.
Qed.

Lemma type_eqb_refl (t : GoType) : type_eqb t t = true.
Proof.
  revert t. fix IH 1. intros [k n|e|n fs]; cbn [type_eqb].
  - by rewrite bool_decide_eq_true_2, String.eqb_refl.
  - apply IH.
  - rewrite String.eqb_refl. cbn [andb].
    induction fs as [|[[x a] ft] fs IHfs]; [done|].
    by rewrite String.eqb_refl, Bool.eqb_reflx, IH, IHfs.
Qed.

(** The cache gives for a type the last address put for it. *)
Lemma cacheGet_cachePut (st : store) (t u : GoType) (m : nat) :
  cacheGet (cachePut st t m) u = if type_eqb u t then Some m else cacheGet st u.
Proof. reflexivity. Qed.

(** ** Values that are no records *)

Lemma ListFields_not_a_struct (t : GoType) :
  TypeKind (interfaceToConcreteType t) ≠ KStruct →
  ListFields (Some t) = Err (ErrNotAStruct (TypeString (interfaceToConcreteType t))).
Proof. intros Hkind. unfold ListFields. by rewrite bool_decide_eq_false_2. Qed.

Lemma EvalTerms_non_record (cur : Value) (t : string) (rest : list string) :
  nilValue cur = Ok false →
  (∀ tname fields, indirect cur ≠ StructV tname fields) →
  EvalTerms cur (t :: rest) = Panic.
Proof.
  intros Hnil Hind. cbn [EvalTerms]. rewrite FieldMap_unfold, Hnil. cbn [obind].
  destruct (indirect cur) as [| | | | | | | | |tname fields]; try done.
  by destruct (Hind tname fields).
Qed.

(** C8 fails on the code.  [ListFields] does return an error that names the
    type when the type is no struct.  But [EvalTerms] panics when a step is
    applied to a value that is no record (and not nil): [FieldMap] calls
    [NumField] on its type.  At the record [NilCfg], whose field [Name] is a
    string, the terms [name], [len] reach the string and panic. *)
Theorem EvalTerms_panics_on_non_record :
  (∀ t, TypeKind (interfaceToConcreteType t) ≠ KStruct →
        ListFields (Some t) = Err (ErrNotAStruct (TypeString (interfaceToConcreteType t))))
  ∧ (∀ cur t rest,
       nilValue cur = Ok false →
       (∀ tname fields, indirect cur ≠ StructV tname fields) →
       EvalTerms cur (t :: rest) = Panic)
  ∧ EvalTerms NilCfg ["name"] = Ok (Str "obj")
  ∧ EvalTerms NilCfg ["name"; "len"] = Panic.
Proof.
  split; [apply ListFields_not_a_struct|]. split; [apply EvalTerms_non_record|].
  split; reflexivity.
Qed.

(** ** The field-map cache *)

(** C6 fails on the code.  On an empty cache the mapping of [E] is
    [a -> A], and the cache then holds it for [E].  Computing the mapping of
    [Outer] next returns the map cached for [E] from the recursive call and
    goes on writing the fields of [Outer] into it: the entry of [E] becomes
    [a -> A, b -> B], which is also what [Outer] gets.  Computed on an empty
    cache, the mapping of [Outer] is [a -> A, b -> B, e -> E], and the
    mapping of [E] computed after it is that same map. *)
Theorem fieldMap_cache_aliasing :
  ∃ st1 st2 st3 st4,
    mappingOf typeE makeCache = Some ({[ "a" := "A" ]}, st1)
    ∧ cached st1 typeE = Some {[ "a" := "A" ]}
    ∧ mappingOf typeOuter st1 = Some (<[ "b" := "B" ]> {[ "a" := "A" ]}, st2)
    ∧ cached st2 typeE = Some (<[ "b" := "B" ]> {[ "a" := "A" ]})
    ∧ mappingOf typeOuter makeCache
      = Some (<[ "e" := "E" ]> (<[ "b" := "B" ]> {[ "a" := "A" ]}), st3)
    ∧ mappingOf typeE st3
      = Some (<[ "e" := "E" ]> (<[ "b" := "B" ]> {[ "a" := "A" ]}), st4).
Proof.
  do 4 eexists. repeat split; vm_compute; reflexivity.
Qed.

(** ** Instances of the general statements *)

Lemma FieldMap_flattening_witness :
  (∃ m, FieldMap OuterShared = Ok m ∧ m !! "Shared" = Some (Str "of Outer"))
  ∧ (∃ m, FieldMap Outer = Ok m ∧ m !! "Shared" = None).
Proof.
  destruct FieldMap_flattening as (Hdeclared & Hambiguous & _).
  split.
  - eexists. split; [vm_compute; reflexivity|].
    eapply (Hdeclared OuterShared _ _ _ "Shared" 3);
      [reflexivity|vm_compute; reflexivity|reflexivity|].
    intros [|[|[|[|j]]]] a w Hj; simplify_eq/=; done.
  - eexists. split; [vm_compute; reflexivity|].
    eapply (Hambiguous Outer); [reflexivity|vm_compute; reflexivity| |vm_compute; lia].
    intros [v Hv]. repeat (apply elem_of_cons in Hv as [Hv|Hv]; [discriminate Hv|]).
    by apply elem_of_nil in Hv.
Defined.



(** * Further properties *)

#[local] Set Warnings "-clear-no-such-hyp".

(** ** Splitting and joining terms *)

Lemma dot_free_app (s t : string) : dot_free (s +:+ t) = dot_free s && dot_free t.
Proof.
  induction s as [|c s IH]; [done|]. rewrite str_app_cons. cbn [dot_free].
  by rewrite IH, andb_assoc.
Qed.

Lemma SplitTerms_dot_free (s : string) : dot_free s = true → SplitTerms s = [s].
Proof.
  unfold SplitTerms. induction s as [|c s IH]; [done|]. cbn [dot_free GoStrings.Split].
  intros [Hc Hs]%andb_prop. apply negb_true_iff in Hc. rewrite Hc, (IH Hs). done.
Qed.

Lemma SplitTerms_segments_dot_free (s : string) :
  Forall (λ x, dot_free x = true) (SplitTerms s).
Proof.
  unfold SplitTerms. induction s as [|c s IH]; [by repeat constructor|].
  cbn [GoStrings.Split]. destruct (Ascii.eqb c ".") eqn:Hc; [by constructor|].
  pose proof (Split_nonempty "."%char s) as Hne.
  destruct (GoStrings.Split "." s) as [|h t]; [done|].
  apply Forall_cons in IH as [Hh Ht]. constructor; [|done].
  cbn [dot_free]. by rewrite Hc, Hh.
Qed.

Lemma SplitTerms_JoinTerms (l : list string) :
  l ≠ [] → Forall (λ x, dot_free x = true) l → SplitTerms (JoinTerms l) = l.
Proof.
  induction l as [|x l IH]; [done|]. intros _ [Hx Hl]%Forall_cons.
  destruct l as [|y l]; [by apply SplitTerms_dot_free|].
  unfold JoinTerms. rewrite Join_cons by done. fold (JoinTerms (y :: l)).
  rewrite SplitTerms_app_dot, SplitTerms_dot_free by done. by rewrite IH.
Qed.

(** X1: [SplitTerms] and [JoinTerms] are inverse to each other: joining the
    terms of a string gives the string back; the terms of a string are never
    none and hold no dot; and splitting the join of a list that is not empty
    and whose terms hold no dot gives the list back. *)
Theorem SplitTerms_JoinTerms_inverse :
  (∀ s, JoinTerms (SplitTerms s) = s)
  ∧ (∀ s, SplitTerms s ≠ [] ∧ Forall (λ x, dot_free x = true) (SplitTerms s))
  ∧ (∀ l, l ≠ [] → Forall (λ x, dot_free x = true) l → SplitTerms (JoinTerms l) = l).
Proof.
  split; [apply JoinTerms_SplitTerms|]. split; [|apply SplitTerms_JoinTerms].
  intros s. split; [apply (Split_nonempty "."%char)|apply SplitTerms_segments_dot_free].
Qed.

Lemma SplitTerms_JoinTerms_inverse_witness :
  [ "a"; "b-c"; "d" ] ≠ [] ∧ SplitTerms (JoinTerms [ "a"; "b-c"; "d" ]) = [ "a"; "b-c"; "d" ].
Proof.
  split; [done|].
  apply (proj2 (proj2 SplitTerms_JoinTerms_inverse)); [done|].
  repeat constructor.
Defined.

(** ** [Inits] *)

(** X2: [Inits(in)] has as many elements as [in]; the element at index [i]
    holds the first [len(in) - i] elements of [in]; so the elements are
    exactly the prefixes of [in] that are not empty, from the longest to the
    shortest, and [Inits] of the empty list is empty. *)
Theorem Inits_prefixes (l : list string) :
  length (Inits l) = length l
  ∧ (∀ i, i < length l → Inits l !! i = Some (take (length l - i) l))
  ∧ (∀ x, x ∈ Inits l ↔ x ≠ [] ∧ x `prefix_of` l).
Proof.
  rewrite Inits_takes.
  assert (Hlookup : ∀ i, i < length l →
            ((λ k, take k l) <$> reverse (seq 1 (length l))) !! i
            = Some (take (length l - i) l)).
  { intros i Hi. rewrite list_lookup_fmap.
    assert (reverse (seq 1 (length l)) !! i = Some (length l - i)) as ->; [|done].
    apply reverse_lookup_Some. rewrite length_seq. split; [|done].
    apply lookup_seq. lia. }
  split; [by rewrite length_fmap, length_reverse, length_seq|]. split; [done|].
  intros x. split.
  - intros [i Hi]%list_elem_of_lookup.
    assert (i < length l) as Hlt.
    { apply lookup_lt_Some in Hi.
      by rewrite length_fmap, length_reverse, length_seq in Hi. }
    rewrite (Hlookup i Hlt) in Hi. simplify_eq. split; [|apply prefix_take].
    intros Hnil%(f_equal length). rewrite length_take in Hnil. simpl in Hnil. lia.
  - intros [Hne [k ->]]. apply list_elem_of_lookup.
    exists (length k). rewrite Hlookup.
    + f_equal. rewrite length_app. replace (length x + length k - length k) with (length x) by lia.
      apply take_app_length.
    + rewrite length_app. destruct x; [done|]. simpl. lia.
Qed.

(** ** [Find] *)

(** X3: [Find] returns [(e, true)] exactly when [e] is the first element of
    the slice for which [f] holds, and the empty string with [false] exactly
    when [f] holds for no element. *)
Theorem Find_first_match (slice : list string) (f : string → bool) (e : string) :
  (Find slice f = (e, true) ↔
   ∃ i, slice !! i = Some e ∧ f e = true ∧ ∀ j x, j < i → slice !! j = Some x → f x = false)
  ∧ (Find slice f = (e, false) ↔ e = EmptyString ∧ ∀ x, x ∈ slice → f x = false).
Proof.
  split; [|apply Find_false]. split; [apply Find_true|].
  intros (i & Hi & He & Hbefore). revert i Hi Hbefore.
  induction slice as [|x slice IH]; intros i Hi Hbefore; [done|]. cbn [Find].
  destruct i as [|i].
  - simplify_eq/=. by rewrite He.
  - rewrite (Hbefore 0 x) by (done || lia). apply (IH i); [done|].
    intros j y Hj Hy. apply (Hbefore (S j)); [lia|done].
Qed.

(** ** [MkCallPipeline] *)

Lemma Join_dot_free (sep : string) (l : list string) :
  dot_free sep = true → Forall (λ x, dot_free x = true) l →
  dot_free (GoStrings.Join sep l) = true.
Proof.
  intros Hsep. induction l as [|x l IH]; [done|]. intros [Hx Hl]%Forall_cons.
  destruct l as [|y l]; [done|]. rewrite Join_cons by done.
  by rewrite !dot_free_app, Hx, Hsep, IH.
Qed.


(** ** [VertexSplit] and [DesugarCall] *)

Lemma Prefixes_head (s : string) : ∃ rest, Prefixes s = s :: rest.
Proof.
  assert (head (Prefixes s) = Some s) as Hhd.
  { rewrite head_lookup. apply Prefixes_lookup.
    split; [apply SplitTerms_length_pos|].
    by rewrite Nat.sub_0_r, firstn_all, JoinTerms_SplitTerms. }
  destruct (Prefixes s) as [|x rest]; simplify_eq/=. by exists rest.
Qed.

Lemma VertexSplit_vertex (g : Graph) (s : string) :
  graph.Contains g s = true → VertexSplit g s = Ok (s, EmptyString, true).
Proof.
  intros Hs. unfold VertexSplit. destruct (Prefixes_head s) as [rest ->].
  cbn [Find]. rewrite Hs. cbn [negb]. by rewrite String.eqb_refl.
Qed.

(** X5: a string that is a vertex splits into itself and the empty
    remainder; so splitting is idempotent: the prefix [VertexSplit] finds
    splits into itself. *)
Theorem VertexSplit_idempotent (g : Graph) (s : string) :
  (graph.Contains g s = true → VertexSplit g s = Ok (s, EmptyString, true))
  ∧ (∀ p r, VertexSplit g s = Ok (p, r, true) →
            VertexSplit g p = Ok (p, EmptyString, true)).
Proof.
  split; [apply VertexSplit_vertex|]. intros p r Hsplit. apply VertexSplit_vertex.
  destruct (Find (Prefixes s) (graph.Contains g)) as [p' [|]] eqn:Hfind.
  - pose proof Hfind as (r' & Hsplit' & _)%VertexSplit_found.
    rewrite Hsplit in Hsplit'. simplify_eq.
    by apply Find_true in Hfind as (_ & _ & Hp & _).
  - apply VertexSplit_not_found in Hfind. congruence.
Qed.

(** X6: [DesugarCall] never panics, makes no other error than the one for a
    call to a dependency that does not exist, and makes that one exactly
    when no dotted prefix of the call is a vertex of the graph. *)
Theorem DesugarCall_error (g : Graph) (call : string) :
  DesugarCall g call ≠ Panic
  ∧ (∀ e, DesugarCall g call = Err e → e = ErrNonExistentDependency)
  ∧ (DesugarCall g call = Err ErrNonExistentDependency ↔
     ∀ q, dotted_prefix q call → graph.Contains g q = false).
Proof.
  rewrite VertexSplit_false_iff. unfold DesugarCall.
  destruct (VertexSplit_total g call) as [[[p r] found] Hsplit]. rewrite Hsplit.
  cbn [obind]. destruct found; cbn [negb].
  - split; [done|]. split; [done|]. split; [done|]. intros Heq. congruence.
  - split; [done|]. split; [by intros e [= <-]|]. split; [|done]. intros _.
    destruct (Find (Prefixes call) (graph.Contains g)) as [p' [|]] eqn:Hfind.
    + apply VertexSplit_found in Hfind as (r' & Hsplit' & _). congruence.
    + apply VertexSplit_not_found in Hfind. congruence.
Qed.

(** ** What [VertexSplitTraverse] returns *)

Section traverse_facts.
Variable g : Graph.
Variable toFind : string.
Variable stop : Graph → string → bool.

(** What a call from [n] with the history [h] returns, when it returns
    normally: the history it leaves holds [n] and all of [h]; a match is the
    split of the sibling identifier at a visited vertex where [stop] does
    not hold; and without a match the result is the empty vertex with the
    whole name. *)
Let returns_well (n : string) (h : gset string)
    (res : option (outcome (split_result * gset string))) : Prop :=
  ∀ r h', res = Some (Ok (r, h')) →
    {[n]} ∪ h ⊆ h'
    ∧ (r.2 = true →
       ∃ n', n' ∈ h' ∧ stop g n' = false
             ∧ VertexSplit g (graph.SiblingID n' toFind) = Ok r)
    ∧ (r.2 = false → r = (EmptyString, toFind, false)).

Lemma forChildren_returns
    (recurse : string → gset string → option (outcome (split_result * gset string)))
    (children : list string) (h h' : gset string) (x : option split_result) :
  (∀ c hc, returns_well c hc (recurse c hc)) →
  forChildren recurse (stop g) children h = Some (Ok (x, h')) →
  h ⊆ h'
  ∧ (∀ r, x = Some r →
       r.2 = true ∧ ∃ n', n' ∈ h' ∧ stop g n' = false
                          ∧ VertexSplit g (graph.SiblingID n' toFind) = Ok r).
Proof.
  intros Hrec. revert h. induction children as [|c children IH]; intros h Hloop.
  { cbn in Hloop. by simplify_eq. }
  cbn [forChildren] in Hloop.
  destruct (bool_decide (c ∈ h)); [by apply IH|].
  destruct (stop g c); [by apply IH|].
  destruct (recurse c h) as [[[[[v m] found] h1]| |]|] eqn:Hcall; cbn [fbind] in Hloop;
    try done.
  destruct (Hrec c h _ _ Hcall) as (Hsub & Hfound & _). destruct found.
  - simplify_eq. split; [set_solver|]. intros r [= <-]. split; [done|]. by apply Hfound.
  - destruct (IH h1 Hloop) as [Hsub' Hx]. split; [set_solver|done].
Qed.

Lemma VertexSplitTraverse_returns_well (fuel : nat) (n : string) (h : gset string) :
  returns_well n h (VertexSplitTraverse fuel g toFind n stop h).
Proof.
  revert n h. induction fuel as [|fuel IH]; intros n h r h' Hcall; [done|].
  cbn [VertexSplitTraverse] in Hcall.
  destruct (forChildren _ _ _ _) as [[[x h1]| |]|] eqn:Hloop; cbn [fbind] in Hcall;
    try done.
  apply (forChildren_returns _ _ _ _ _ IH) in Hloop as [Hsub Hx].
  destruct x as [r1|].
  { simplify_eq. destruct (Hx r eq_refl) as [Hfound Hn]. split; [done|].
    split; [done|]. intros Hnot. congruence. }
  destruct (stop g n) eqn:Hstop.
  { simplify_eq. split; [done|]. split; [done|]. done. }
  destruct (VertexSplit g (graph.SiblingID n toFind)) as [[[v m] found]| |] eqn:Hsplit;
    cbn [fbind] in Hcall; try done.
  destruct found.
  - simplify_eq. split; [done|]. split; [|done]. intros _. exists n.
    split; [set_solver|]. done.
  - destruct (IH _ _ _ _ Hcall) as (Hsub' & Hfound & Hnot).
    split; [set_solver|]. done.
Qed.

End traverse_facts.

(** X7: [VertexSplitTraverse] only adds to the history: the map it leaves
    holds the starting vertex and every vertex it held at the call. *)
Theorem VertexSplitTraverse_history_grows (fuel : nat) (g : Graph) (toFind start : string)
    (stop : Graph → string → bool) (history history' : gset string) (r : split_result) :
  VertexSplitTraverse fuel g toFind start stop history = Some (Ok (r, history')) →
  start ∈ history' ∧ history ⊆ history'.
Proof.
  intros Hcall.
  destruct (VertexSplitTraverse_returns_well g toFind stop fuel start history r history' Hcall)
    as (Hsub & _). set_solver.
Qed.

Lemma VertexSplitTraverse_history_grows_witness :
  VertexSplitTraverse 1 sibling_graph "x" "root.a.m" TraverseUntilModule {[ "root" ]}
  = Some (Ok ((EmptyString, "x", false), {[ "root.a.m"; "root" ]}))
  ∧ "root.a.m" ∈ ({[ "root.a.m"; "root" ]} : gset string)
  ∧ ({[ "root" ]} : gset string) ⊆ {[ "root.a.m"; "root" ]}.
Proof.
  split; [reflexivity|].
  apply (VertexSplitTraverse_history_grows 1 sibling_graph "x" "root.a.m"
           TraverseUntilModule {[ "root" ]} _ (EmptyString, "x", false)).
  reflexivity.
Defined.

(** X8: a match [VertexSplitTraverse] returns is sound: the vertex is a
    vertex of the graph, and the match is what [VertexSplit] finds for the
    sibling identifier of the name at a vertex the traversal visited and at
    which [stop] does not hold. *)
Theorem VertexSplitTraverse_match_sound (fuel : nat) (g : Graph) (toFind start : string)
    (stop : Graph → string → bool) (history history' : gset string) (vertex middle : string) :
  VertexSplitTraverse fuel g toFind start stop history
  = Some (Ok ((vertex, middle, true), history')) →
  graph.Contains g vertex = true
  ∧ ∃ n, n ∈ history' ∧ stop g n = false
         ∧ VertexSplit g (graph.SiblingID n toFind) = Ok (vertex, middle, true).
Proof.
  intros Hcall.
  destruct (VertexSplitTraverse_returns_well g toFind stop fuel start history _ _ Hcall)
    as (_ & Hfound & _).
  destruct (Hfound eq_refl) as (n & Hn & Hstop & Hsplit). split; [|by exists n].
  destruct (Find (Prefixes (graph.SiblingID n toFind)) (graph.Contains g))
    as [p [|]] eqn:Hfind.
  - pose proof Hfind as (r' & Hsplit' & _)%VertexSplit_found.
    rewrite Hsplit in Hsplit'. simplify_eq.
    by apply Find_true in Hfind as (_ & _ & Hp & _).
  - apply VertexSplit_not_found in Hfind. congruence.
Qed.

(** The graph with the vertices [root.a.y] and [root.a.x], no modules. *)
Lemma VertexSplitTraverse_match_sound_witness :
  VertexSplitTraverse 1 (mkGraph (<["root.a.y" := OtherValue "task"]>
                                   (<["root.a.x" := OtherValue "file"]> ∅)) ∅)
                      "x.dest" "root.a.y" TraverseUntilModule ∅
  = Some (Ok (("root.a.x", "dest", true), {[ "root.a.y" ]}))
  ∧ graph.Contains (mkGraph (<["root.a.y" := OtherValue "task"]>
                              (<["root.a.x" := OtherValue "file"]> ∅)) ∅) "root.a.x" = true.
Proof.
  split; [reflexivity|].
  apply (VertexSplitTraverse_match_sound 1 _ "x.dest" "root.a.y" TraverseUntilModule
           ∅ {[ "root.a.y" ]} "root.a.x" "dest").
  reflexivity.
Defined.

(** X9: when [VertexSplitTraverse] returns without a match, what it returns
    is the empty vertex with the whole name as the remainder, wherever the
    traversal ended. *)
Theorem VertexSplitTraverse_no_match (fuel : nat) (g : Graph) (toFind start : string)
    (stop : Graph → string → bool) (history history' : gset string) (vertex middle : string) :
  VertexSplitTraverse fuel g toFind start stop history
  = Some (Ok ((vertex, middle, false), history')) →
  vertex = EmptyString ∧ middle = toFind.
Proof.
  intros Hcall.
  destruct (VertexSplitTraverse_returns_well g toFind stop fuel start history _ _ Hcall)
    as (_ & _ & Hnot).
  specialize (Hnot eq_refl). by simplify_eq.
Qed.

Lemma VertexSplitTraverse_no_match_witness :
  VertexSplitTraverse 2 (mkGraph {[ "root.a.y" := OtherValue "task" ]} ∅)
                      "x.dest" "root.a.y" TraverseUntilModule ∅
  = Some (Ok ((EmptyString, "x.dest", false), {[ "root.a"; "root.a.y" ]}))
  ∧ EmptyString = EmptyString ∧ "x.dest" = "x.dest".
Proof.
  split; [reflexivity|].
  apply (VertexSplitTraverse_no_match 2 (mkGraph {[ "root.a.y" := OtherValue "task" ]} ∅)
           "x.dest" "root.a.y" TraverseUntilModule ∅ {[ "root.a"; "root.a.y" ]}).
  reflexivity.
Defined.

(** ** Termination of the traversal up to modules *)

Lemma forChildren_mono
    (rec1 rec2 : string → gset string → option (outcome (split_result * gset string)))
    (stop_at : string → bool) (children : list string) (h : gset string)
    (x : outcome (option split_result * gset string)) :
  (∀ c hc r, rec1 c hc = Some r → rec2 c hc = Some r) →
  forChildren rec1 stop_at children h = Some x →
  forChildren rec2 stop_at children h = Some x.
Proof.
  intros Hrec. revert h. induction children as [|c children IH]; intros h Hloop; [done|].
  cbn [forChildren] in *.
  destruct (bool_decide (c ∈ h)); [by apply IH|].
  destruct (stop_at c); [by apply IH|].
  destruct (rec1 c h) as [r|] eqn:Hcall; [|done].
  rewrite (Hrec _ _ _ Hcall). destruct r as [[[[v m] found] h1]| |]; cbn [fbind] in *;
    try done.
  destruct found; [done|]. by apply IH.
Qed.

Lemma VertexSplitTraverse_fuel_S (fuel : nat) (g : Graph) (toFind n : string)
    (stop : Graph → string → bool) (h : gset string)
    (r : outcome (split_result * gset string)) :
  VertexSplitTraverse fuel g toFind n stop h = Some r →
  VertexSplitTraverse (S fuel) g toFind n stop h = Some r.
Proof.
  revert n h r. induction fuel as [|fuel IH]; intros n h r Hcall; [done|].
  cbn [VertexSplitTraverse] in Hcall.
  change (VertexSplitTraverse (S (S fuel)) g toFind n stop h)
    with ('(returned, history) ←!
            forChildren (λ child h, VertexSplitTraverse (S fuel) g toFind child stop h)
                        (stop g) (graph.Children g n) ({[n]} ∪ h);
          match returned with
          | Some r => Some (Ok (r, history))
          | None =>
              if stop g n then Some (Ok ((EmptyString, toFind, false), history))
              else
                '(vertex, middle, found) ←! Some (VertexSplit g (graph.SiblingID n toFind));
                if found then Some (Ok ((vertex, middle, found), history))
                else VertexSplitTraverse (S fuel) g toFind (graph.ParentID n) stop history
          end).
  destruct (forChildren _ _ _ _) as [x|] eqn:Hloop; [|done].
  rewrite (forChildren_mono _ (λ child h, VertexSplitTraverse (S fuel) g toFind child stop h)
             _ _ _ _ IH Hloop).
  destruct x as [[[r1|] h1]| |]; cbn [fbind] in *; try done.
  destruct (stop g n); [done|].
  destruct (VertexSplit g (graph.SiblingID n toFind)) as [[[v m] found]| |];
    cbn [fbind] in *; try done.
  destruct found; [done|]. by apply IH.
Qed.

Lemma VertexSplitTraverse_fuel_le (fuel fuel' : nat) (g : Graph) (toFind n : string)
    (stop : Graph → string → bool) (h : gset string)
    (r : outcome (split_result * gset string)) :
  fuel ≤ fuel' →
  VertexSplitTraverse fuel g toFind n stop h = Some r →
  VertexSplitTraverse fuel' g toFind n stop h = Some r.
Proof.
  induction 1 as [|fuel' _ IH]; [done|]. intros Hcall.
  by apply VertexSplitTraverse_fuel_S, IH.
Qed.

Lemma ParentID_shorter (n : string) :
  n ≠ EmptyString → String.length (graph.ParentID n) < String.length n.
Proof.
  intros Hn. unfold graph.ParentID. fold (SplitTerms n).
  pose proof (SplitTerms_length_pos n) as Hpos.
  destruct (decide (length (SplitTerms n) = 1)) as [->|Hlen].
  - change (1 - 1) with 0. rewrite take_0. destruct n; [done|].
    cbn [GoStrings.Join String.length]. lia.
  - pose proof (JoinTerms_take_drop (SplitTerms n) (length (SplitTerms n) - 1)
                  ltac:(lia) ltac:(lia)) as Heq.
    rewrite JoinTerms_SplitTerms in Heq. apply (f_equal String.length) in Heq.
    rewrite !str_length_app in Heq. simpl in Heq. unfold JoinTerms in Heq. lia.
Qed.

Lemma continue_is_vertex (g : Graph) (n : string) :
  TraverseUntilModule g n = false → graph.Contains g n = true.
Proof.
  unfold TraverseUntilModule, graph.Get, graph.Contains.
  destruct (graph.IsRoot n); [done|]. destruct (values g !! n) eqn:Hn; [|done].
  intros _. apply bool_decide_eq_true. by eexists.
Qed.

Lemma sibling_of_nothing (g : Graph) (toFind : string) :
  graph.Contains g EmptyString = true →
  ∃ v m, VertexSplit g (graph.SiblingID EmptyString toFind) = Ok (v, m, true).
Proof.
  intros Hempty.
  destruct (VertexSplit_total g (graph.SiblingID EmptyString toFind))
    as [[[v m] found] Hsplit].
  destruct found; [by exists v, m|].
  destruct (Find (Prefixes (graph.SiblingID EmptyString toFind)) (graph.Contains g))
    as [p [|]] eqn:Hfind.
  - apply VertexSplit_found in Hfind as (r & Hsplit' & _). congruence.
  - apply VertexSplit_not_found in Hfind.
    pose proof (proj2 (VertexSplit_false_iff g _) Hfind) as Hnone.
    rewrite (Hnone EmptyString) in Hempty; [done|]. right. by exists toFind.
Qed.

Lemma size_lt_of_elem (X Y : gset string) (x : string) :
  X ⊆ Y → x ∈ Y → x ∉ X → size X < size Y.
Proof.
  intros Hsub HY HX. apply subset_size. split; [done|]. intros Hsup. by apply HX, Hsup.
Qed.

Section termination.
Variable g : Graph.
Variable toFind : string.

(** The vertices of the graph that a call from [n] with the history [h] has
    not visited when it enters its loop. *)
Let unvisited (n : string) (h : gset string) : nat :=
  size (dom (values g) ∖ ({[n]} ∪ h)).

Let terminates (n : string) (h : gset string) : Prop :=
  ∃ fuel r, VertexSplitTraverse fuel g toFind n TraverseUntilModule h = Some r.

Lemma unvisited_child (n c : string) (h hc : gset string) :
  {[n]} ∪ h ⊆ hc → c ∉ hc → TraverseUntilModule g c = false →
  unvisited c hc < unvisited n h.
Proof.
  intros Hsub Hc Hstop. apply continue_is_vertex in Hstop.
  apply bool_decide_eq_true, elem_of_dom in Hstop.
  unfold unvisited. apply (size_lt_of_elem _ _ c); set_solver.
Qed.

Lemma unvisited_parent (n p : string) (h h' : gset string) :
  {[n]} ∪ h ⊆ h' → unvisited p h' ≤ unvisited n h.
Proof. intros Hsub. unfold unvisited. apply subseteq_size. set_solver. Qed.

Lemma children_terminate (k : nat) (children : list string) (hc : gset string) :
  (∀ c h, unvisited c h < k → terminates c h) →
  size (dom (values g) ∖ hc) ≤ k →
  ∃ fuel x,
    forChildren (λ child h, VertexSplitTraverse fuel g toFind child TraverseUntilModule h)
                (TraverseUntilModule g) children hc = Some x.
Proof.
  intros Hbelow. revert hc. induction children as [|c children IH]; intros hc Hsize.
  { by exists 0, (Ok (None, hc)). }
  cbn [forChildren]. case_bool_decide as Hin; [by apply IH|].
  destruct (TraverseUntilModule g c) eqn:Hstop; [by apply IH|].
  destruct (Hbelow c hc) as (fuel1 & r1 & Hcall).
  { apply continue_is_vertex, bool_decide_eq_true, elem_of_dom in Hstop.
    eapply Nat.lt_le_trans; [|exact Hsize].
    apply (size_lt_of_elem _ _ c); set_solver. }
  destruct r1 as [[[[v m] found] h1]| |].
  - destruct found.
    + exists fuel1. rewrite Hcall. cbn [fbind]. by eexists.
    + destruct (VertexSplitTraverse_returns_well _ _ _ _ _ _ _ _ Hcall) as (Hsub & _).
      destruct (IH h1) as (fuel2 & x & Hloop).
      { etrans; [|exact Hsize]. apply subseteq_size. set_solver. }
      exists (fuel1 `max` fuel2), x.
      rewrite (VertexSplitTraverse_fuel_le fuel1 _ _ _ _ _ _ _ (Nat.le_max_l _ _) Hcall).
      cbn [fbind]. eapply forChildren_mono; [|exact Hloop].
      intros c' hc' r'. apply VertexSplitTraverse_fuel_le, Nat.le_max_r.
  - exists fuel1. rewrite Hcall. cbn [fbind]. by eexists.
  - exists fuel1. rewrite Hcall. cbn [fbind]. by eexists.
Qed.

Lemma traversal_step (k : nat) :
  (∀ c h, unvisited c h < k → terminates c h) →
  ∀ len n h, String.length n ≤ len → unvisited n h ≤ k → terminates n h.
Proof.
  intros Hbelow. induction len as [|len IHlen]; intros n h Hlen Hk.
  all: destruct (children_terminate k (graph.Children g n) ({[n]} ∪ h) Hbelow Hk)
         as (fuel1 & x & Hloop).
  all: destruct x as [[[r1|] h1]| |];
         [exists (S fuel1); cbn [VertexSplitTraverse]; rewrite Hloop; by eexists
         | |exists (S fuel1); cbn [VertexSplitTraverse]; rewrite Hloop; by eexists
         |exists (S fuel1); cbn [VertexSplitTraverse]; rewrite Hloop; by eexists].
  all: destruct (TraverseUntilModule g n) eqn:Hstop;
         [exists (S fuel1); cbn [VertexSplitTraverse]; rewrite Hloop; cbn [fbind];
          rewrite Hstop; by eexists|].
  all: destruct (VertexSplit_total g (graph.SiblingID n toFind)) as [[[v m] found] Hsplit].
  all: destruct found;
         [exists (S fuel1); cbn [VertexSplitTraverse]; rewrite Hloop; cbn [fbind];
          rewrite Hstop, Hsplit; by eexists|].
  all: assert (Hn : n ≠ EmptyString)
         by (intros ->; apply continue_is_vertex in Hstop;
             destruct (sibling_of_nothing g toFind Hstop) as (? & ? & ?); congruence).
  - destruct n; [done|]. cbn in Hlen. lia.
  - pose proof (ParentID_shorter n Hn) as Hshort.
    assert (Hsub : {[n]} ∪ h ⊆ h1).
    { pose proof (forChildren_returns g toFind TraverseUntilModule _ _ _ _ _
                    (VertexSplitTraverse_returns_well g toFind TraverseUntilModule fuel1)
                    Hloop) as [Hsub _]. done. }
    destruct (IHlen (graph.ParentID n) h1) as (fuel2 & r & Hcall); [lia| |].
    { etrans; [by apply (unvisited_parent n)|done]. }
    exists (S (fuel1 `max` fuel2)), r. cbn [VertexSplitTraverse].
    rewrite (forChildren_mono _ _ _ _ _ _
               (λ c hc r, VertexSplitTraverse_fuel_le fuel1 _ g toFind c TraverseUntilModule
                            hc r (Nat.le_max_l fuel1 fuel2)) Hloop).
    cbn [fbind]. rewrite Hstop, Hsplit. cbn [fbind].
    apply (VertexSplitTraverse_fuel_le fuel2); [apply Nat.le_max_r|done].
Qed.

Lemma traversal_terminates (n : string) (h : gset string) : terminates n h.
Proof.
  remember (unvisited n h) as k eqn:Hk. revert n h Hk.
  induction k as [k IH] using lt_wf_ind. intros n h ->.
  apply (traversal_step (unvisited n h)) with (len := String.length n); [|done|done].
  intros c hc Hlt. by apply (IH _ Hlt).
Qed.

End termination.

(** X10: the traversal up to modules terminates: on every graph, for every
    name, starting vertex and history, [VertexSplitTraverse] with
    [TraverseUntilModule] returns, and what it returns is the same for every
    recursion depth that suffices. *)
Theorem VertexSplitTraverse_terminates (g : Graph) (toFind start : string)
    (history : gset string) :
  ∃ fuel res, ∀ fuel', fuel ≤ fuel' →
    VertexSplitTraverse fuel' g toFind start TraverseUntilModule history = Some res.
Proof.
  destruct (traversal_terminates g toFind start history) as (fuel & res & Hcall).
  exists fuel, res. intros fuel' Hle. by apply (VertexSplitTraverse_fuel_le fuel).
Qed.


(** ** More on [FieldMap] *)

(** X11: [FieldMap] looks through pointers and interfaces: the map of a
    value that is a chain of pointers and interfaces, none of them nil, down
    to a struct is the map of that struct; and the map of a nil pointer is
    empty. *)
Theorem FieldMap_dereferences :
  (∀ obj tname fields,
     indirect obj = StructV tname fields → FieldMap obj = FieldMap (StructV tname fields))
  ∧ (∀ tname, FieldMap (NilPtr tname) = Ok ∅).
Proof.
  split; [|done]. intros obj tname fields Hind.
  by rewrite (FieldMap_indirect_struct _ _ _ Hind), FieldMap_struct.
Qed.

Lemma FieldMap_dereferences_witness :
  indirect (PtrTo (IfaceOf (PtrTo Outer))) = Outer
  ∧ FieldMap (PtrTo (IfaceOf (PtrTo Outer))) = FieldMap Outer.
Proof.
  split; [reflexivity|].
  apply (proj1 FieldMap_dereferences (PtrTo (IfaceOf (PtrTo Outer))) "Outer"). reflexivity.
Defined.

Section forFields_sources.
Variable all : list (string * bool * Value).

(** What the loop over the fields keeps: every binding of [results] has a
    source among the fields [all] of the record, and [unembeddedRefs] binds a
    name to the index of a field of that name that is not embedded. *)
Let sourced (st : fmaps) : Prop :=
  (∀ n v, results st !! n = Some v → field_source all n v)
  ∧ (∀ n idx, unembeddedRefs st !! n = Some idx → ∃ v, all !! idx = Some (n, false, v)).

Lemma forFields_sourced (fields : list (string * bool * Value)) (idx : nat) (st st' : fmaps) :
  forFields (λ field, FieldMap (viaInterface field)) fields idx st = Ok st' →
  (∀ i f, fields !! i = Some f → all !! (idx + i) = Some f) →
  sourced st → sourced st'.
Proof.
  revert idx st. induction fields as [|[[name anonymous] field] fields IH];
    intros idx st Hrun Hall Hst; [by simplify_eq/=|].
  assert (Hhere : all !! idx = Some (name, anonymous, field)).
  { rewrite <-(Nat.add_0_r idx). by apply Hall. }
  assert (Hin : (name, anonymous, field) ∈ all) by (by eapply list_elem_of_lookup_2).
  assert (Hrest : ∀ i f, fields !! i = Some f → all !! (idx + 1 + i) = Some f).
  { intros i f Hi. replace (idx + 1 + i) with (idx + S i) by lia. by apply Hall. }
  destruct Hst as [Hres Hun]. cbn [forFields] in Hrun. destruct anonymous.
  - destruct (nilValue field) as [[|]| |]; cbn [obind] in Hrun; try done.
    + apply (IH _ _ Hrun Hrest). split; [|done]. cbn [results]. intros n v.
      destruct (decide (name = n)) as [->|Hne].
      * rewrite lookup_insert_eq. intros [= <-]. left. by exists true.
      * rewrite lookup_insert_ne by done. apply Hres.
    + destruct (exported name); [|done].
      destruct (FieldMap (viaInterface field)) as [inner| |] eqn:Hinner;
        cbn [obind] in Hrun; try done.
      apply (IH _ _ Hrun Hrest). split.
      * cbn [results]. intros n v. destruct (decide (name = n)) as [->|Hne].
        { rewrite lookup_insert_eq. intros [= <-]. left. by exists true. }
        rewrite lookup_insert_ne by done.
        destruct (countEmbedded_fold st inner n) as (-> & _ & _).
        destruct (results st !! n) as [w|] eqn:Hw.
        { intros [= <-]. by apply Hres. }
        intros Hv. right. by exists name, field, inner.
      * cbn [unembeddedRefs]. by destruct (countEmbedded_fold st inner name) as (_ & _ & ->).
  - apply (IH _ _ Hrun Hrest). split.
    + cbn [results]. intros n v. destruct (decide (name = n)) as [->|Hne].
      * rewrite lookup_insert_eq. intros [= <-]. left. by exists false.
      * rewrite lookup_insert_ne by done. apply Hres.
    + cbn [unembeddedRefs]. intros n i. destruct (decide (name = n)) as [->|Hne].
      * rewrite lookup_insert_eq. intros [= <-]. by exists field.
      * rewrite lookup_insert_ne by done. apply Hun.
Qed.

End forFields_sources.

Lemma structFields_sourced (fields : list (string * bool * Value)) (m : gmap string Value)
    (n : string) (v : Value) :
  structFields fields = Ok m → m !! n = Some v → field_source fields n v.
Proof.
  unfold structFields. intros Hmap Hv.
  destruct (forFields _ fields 0 _) as [st| |] eqn:Hrun; cbn [obind] in Hmap; try done.
  destruct (forFields_sourced fields _ _ _ _ Hrun) as [Hres Hun]; [done| |].
  { split; intros ? ?; cbn; by rewrite lookup_empty. }
  rewrite (resolveRef_fold _ _ _ _ _ n Hmap) in Hv.
  destruct (embeddedRefs st !! n) as [c|]; [|by apply Hres].
  destruct (c <=? 1)%nat; [by apply Hres|].
  destruct (unembeddedRefs st !! n) as [idx|] eqn:Hidx; [|done]. cbn in Hv.
  destruct (Hun n idx Hidx) as [w Hw]. rewrite Hw in Hv. cbn in Hv. simplify_eq.
  left. exists false. by eapply list_elem_of_lookup_2.
Qed.

(** X12: [FieldMap] makes no binding up: whatever the map of a record binds
    a name to is the value of a field of that name of the record, or what the
    map of one of its embedded records binds the name to. *)
Theorem FieldMap_bindings_have_sources (obj : Value) (tname : string)
    (fields : list (string * bool * Value)) (m : gmap string Value) (n : string) (v : Value) :
  indirect obj = StructV tname fields →
  FieldMap obj = Ok m →
  m !! n = Some v →
  field_source fields n v.
Proof.
  intros Hind Hmap Hv. rewrite (FieldMap_indirect_struct _ _ _ Hind) in Hmap.
  by apply (structFields_sourced fields m).
Qed.

Lemma FieldMap_bindings_have_sources_witness :
  ∃ m, FieldMap (PtrTo Outer) = Ok m ∧ m !! "A" = Some (Str "a")
       ∧ field_source [("Name", false, Str "name"); ("E1", true, E1); ("E2", true, E2)]
                      "A" (Str "a").
Proof.
  eexists. split; [vm_compute; reflexivity|]. split; [vm_compute; reflexivity|].
  eapply (FieldMap_bindings_have_sources (PtrTo Outer) "Outer");
    [reflexivity|vm_compute; reflexivity|vm_compute; reflexivity].
Defined.

Lemma forFields_flat (emb : Value → outcome (gmap string Value))
    (fields : list (string * bool * Value)) (idx : nat) (st : fmaps) :
  Forall (λ f, f.1.2 = false) fields →
  ∃ st', forFields emb fields idx st = Ok st' ∧ embeddedRefs st' = embeddedRefs st.
Proof.
  revert idx st. induction fields as [|[[name anonymous] field] fields IH];
    intros idx st Hflat; [by exists st|].
  apply Forall_cons in Hflat as [Hhere Hrest]. cbn in Hhere. subst anonymous.
  cbn [forFields].
  destruct (IH (idx + 1)
              (mkFmaps (<[name := field]> (results st)) (embeddedRefs st)
                       (<[name := idx]> (unembeddedRefs st))) Hrest) as (st' & -> & Hemb).
  by exists st'.
Qed.

Lemma NoDup_names_unique (fields : list (string * bool * Value)) (i j : nat)
    (n : string) (a a' : bool) (v w : Value) :
  NoDup fields.*1.*1 →
  fields !! i = Some (n, a, v) → fields !! j = Some (n, a', w) → j = i.
Proof.
  intros Hnodup Hi Hj. apply (NoDup_lookup _ j i n Hnodup).
  - by rewrite !list_lookup_fmap, Hj.
  - by rewrite !list_lookup_fmap, Hi.
Qed.

(** X13: for a struct without embedded fields (the names of its fields being
    distinct, as in every Go struct) [FieldMap] does not panic, and its map
    binds exactly the names of the fields, each to the value of its field. *)
Theorem FieldMap_plain_struct (tname : string) (fields : list (string * bool * Value)) :
  Forall (λ f, f.1.2 = false) fields →
  NoDup fields.*1.*1 →
  ∃ m, FieldMap (StructV tname fields) = Ok m
       ∧ ∀ n v, m !! n = Some v ↔ (n, false, v) ∈ fields.
Proof.
  intros Hflat Hnodup.
  destruct (forFields_flat (λ field, FieldMap (viaInterface field)) fields 0
              (mkFmaps ∅ ∅ ∅) Hflat) as (st & Hrun & Hemb).
  assert (Hmap : FieldMap (StructV tname fields) = Ok (results st)).
  { rewrite FieldMap_struct. unfold structFields. rewrite Hrun. cbn [obind].
    rewrite Hemb. cbn [embeddedRefs]. by rewrite map_fold_empty. }
  exists (results st). split; [done|]. intros n v. split.
  - intros Hv. rewrite FieldMap_struct in Hmap.
    destruct (structFields_sourced fields _ n v Hmap Hv)
      as [[a Hin]|(e & fv & inner & Hin & _)].
    + rewrite Forall_forall in Hflat. specialize (Hflat _ Hin). cbn in Hflat. by subst a.
    + rewrite Forall_forall in Hflat. by specialize (Hflat _ Hin).
  - intros [i Hi]%list_elem_of_lookup.
    apply (FieldMap_declared_wins (StructV tname fields) tname fields _ n i v);
      [done|done|done|].
    intros j a w Hj. by apply (NoDup_names_unique fields i j n false a v w).
Qed.

Lemma FieldMap_plain_struct_witness :
  ∃ m, FieldMap NilCfg = Ok m
       ∧ ∀ n v, m !! n = Some v
                ↔ (n, false, v) ∈ [("Name", false, Str "obj"); ("Cfg", false, NilPtr "Cfg")].
Proof.
  apply (FieldMap_plain_struct "Obj" [("Name", false, Str "obj"); ("Cfg", false, NilPtr "Cfg")]).
  - by repeat constructor.
  - apply (bool_decide_unpack _). vm_compute. exact I.
Defined.

Section forFields_named.
Variable emb : Value → outcome (gmap string Value).
Variable n : string.

(** The field named [n], embedded or not, when no other field of the record
    has that name: [results] ends with it. *)
Lemma forFields_own_name (fields : list (string * bool * Value)) (idx : nat)
    (st st' : fmaps) (i : nat) (a : bool) (v : Value) :
  forFields emb fields idx st = Ok st' →
  fields !! i = Some (n, a, v) →
  (∀ j a' w, fields !! j = Some (n, a', w) → j = i) →
  results st' !! n = Some v.
Proof.
  revert idx st i. induction fields as [|[[name anonymous] field] fields IH];
    intros idx st i Hrun Hi Huniq; [done|].
  destruct i as [|i].
  - assert (Hnone : ∀ a' w, (n, a', w) ∉ fields).
    { intros a' w [j Hj]%list_elem_of_lookup. by specialize (Huniq (S j) a' w Hj). }
    simplify_eq/=. destruct a.
    + destruct (nilValue v) as [[|]| |]; cbn [obind] in Hrun; try done.
      * apply (forFields_results_keep _ _ _ _ _ _ _ Hrun Hnone).
        cbn [results]. by rewrite lookup_insert_eq.
      * destruct (if exported n then emb v else Panic) as [inner| |];
          cbn [obind] in Hrun; try done.
        apply (forFields_results_keep _ _ _ _ _ _ _ Hrun Hnone).
        cbn [results]. by rewrite lookup_insert_eq.
    + apply (forFields_results_keep _ _ _ _ _ _ _ Hrun Hnone).
      cbn [results]. by rewrite lookup_insert_eq.
  - assert (Huniq' : ∀ j a' w, fields !! j = Some (n, a', w) → j = i).
    { intros j a' w Hj. specialize (Huniq (S j) a' w Hj). lia. }
    cbn [lookup list_lookup] in Hi. cbn [forFields] in Hrun. destruct anonymous.
    + destruct (nilValue field) as [[|]| |]; cbn [obind] in Hrun; try done.
      * by apply (IH _ _ i Hrun).
      * destruct (if exported name then emb field else Panic) as [inner| |];
          cbn [obind] in Hrun; try done.
        by apply (IH _ _ i Hrun).
    + by apply (IH _ _ i Hrun).
Qed.

End forFields_named.

(** X14: an embedded record stays within reach under its own name, whether
    it is nil or not: the map binds the name of an embedded field to the
    value of that field, unless two or more embedded records have a field of
    that name. *)
Theorem FieldMap_embedded_own_name (obj : Value) (tname : string)
    (fields : list (string * bool * Value)) (m : gmap string Value)
    (n : string) (i : nat) (v : Value) :
  indirect obj = StructV tname fields →
  FieldMap obj = Ok m →
  fields !! i = Some (n, true, v) →
  (∀ j a w, fields !! j = Some (n, a, w) → j = i) →
  embedded_occurrences n fields ≤ 1 →
  m !! n = Some v.
Proof.
  intros Hind Hmap Hi Huniq Hocc.
  rewrite (FieldMap_indirect_struct _ _ _ Hind) in Hmap. unfold structFields in Hmap.
  destruct (forFields _ fields 0 _) as [st| |] eqn:Hrun; cbn [obind] in Hmap; try done.
  pose proof (forFields_own_name _ n _ _ _ _ i true v Hrun Hi Huniq) as Hres.
  pose proof (forFields_counts n _ _ _ _ Hrun) as Hcount.
  cbn [embeddedRefs] in Hcount. rewrite lookup_empty in Hcount. cbn in Hcount.
  rewrite (resolveRef_fold _ _ _ _ _ n Hmap).
  destruct (embeddedRefs st !! n) as [c|]; [|done]. cbn in Hcount.
  destruct (Nat.leb_spec c 1); [done|lia].
Qed.

(** [Outer{ Name; *E1 }] with the embedded pointer nil. *)
Lemma FieldMap_embedded_own_name_witness :
  ∃ m, FieldMap (StructV "Outer" [("Name", false, Str "name"); ("E1", true, NilPtr "E1")])
       = Ok m
       ∧ m !! "E1" = Some (NilPtr "E1").
Proof.
  eexists. split; [vm_compute; reflexivity|].
  eapply (FieldMap_embedded_own_name
            (StructV "Outer" [("Name", false, Str "name"); ("E1", true, NilPtr "E1")])
            "Outer" _ _ "E1" 1);
    [reflexivity|vm_compute; reflexivity|reflexivity| |vm_compute; lia].
  intros [|[|[|j]]] a w Hj; simplify_eq/=; done.
Defined.

Lemma occurrences_one (n : string) (fields : list (string * bool * Value)) (i : nat)
    (f : string * bool * Value) :
  fields !! i = Some f → appears_in n f = true → 1 ≤ embedded_occurrences n fields.
Proof.
  revert i. induction fields as [|f0 fields IH]; intros i Hi Hf; [done|].
  cbn [embedded_occurrences]. destruct i as [|i].
  - simplify_eq/=. rewrite Hf. lia.
  - specialize (IH i Hi Hf). lia.
Qed.

Lemma occurrences_two (n : string) (fields : list (string * bool * Value)) (i j : nat)
    (f f' : string * bool * Value) :
  i < j → fields !! i = Some f → fields !! j = Some f' →
  appears_in n f = true → appears_in n f' = true → 2 ≤ embedded_occurrences n fields.
Proof.
  revert i j. induction fields as [|f0 fields IH]; intros i j Hij Hi Hj Hf Hf'; [done|].
  cbn [embedded_occurrences]. destruct j as [|j]; [lia|]. destruct i as [|i].
  - simplify_eq/=. rewrite Hf. pose proof (occurrences_one n fields j f' Hj Hf'). lia.
  - assert (i < j) as Hlt by lia. specialize (IH i j Hlt Hi Hj Hf Hf'). lia.
Qed.

Lemma appears_in_embedded (n e : string) (fv : Value) (inner : gmap string Value) :
  FieldMap (viaInterface fv) = Ok inner →
  appears_in n (e, true, fv) = bool_decide (is_Some (inner !! n)).
Proof. intros Hinner. cbn [appears_in andb]. by rewrite Hinner. Qed.

Lemma forFields_promoted (n : string) (fields : list (string * bool * Value)) (idx : nat)
    (st st' : fmaps) (i : nat) (e : string) (fv : Value) (inner : gmap string Value)
    (v : Value) :
  forFields (λ field, FieldMap (viaInterface field)) fields idx st = Ok st' →
  results st !! n = None →
  (∀ a w, (n, a, w) ∉ fields) →
  fields !! i = Some (e, true, fv) →
  FieldMap (viaInterface fv) = Ok inner →
  inner !! n = Some v →
  (∀ j f, j < i → fields !! j = Some f → appears_in n f = false) →
  results st' !! n = Some v.
Proof.
  revert idx st i. induction fields as [|[[name anonymous] field] fields IH];
    intros idx st i Hrun Hres Hnone Hi Hinner Hv Hbefore; [done|].
  assert (Hrest : ∀ a w, (n, a, w) ∉ fields).
  { intros a w Hin. apply (Hnone a w). by right. }
  assert (Hname : name ≠ n).
  { intros ->. apply (Hnone anonymous field). by left. }
  cbn [forFields] in Hrun. destruct i as [|i].
  - simplify_eq/=.
    assert (Happ : appears_in n (e, true, fv) = true).
    { rewrite (appears_in_embedded n e fv inner Hinner), Hv. by apply bool_decide_eq_true. }
    destruct (nilValue fv) as [[|]| |] eqn:Hnil; cbn [obind] in Hrun; try done.
    { by rewrite (appears_in_nil n e fv Hnil) in Happ. }
    destruct (exported e); [|done]. rewrite Hinner in Hrun. cbn [obind] in Hrun.
    apply (forFields_results_keep _ n _ _ _ _ _ Hrun Hrest).
    cbn [results]. rewrite lookup_insert_ne by done.
    destruct (countEmbedded_fold st inner n) as (-> & _ & _). by rewrite Hres.
  - cbn [lookup list_lookup] in Hi.
    assert (Hbefore' : ∀ j f, j < i → fields !! j = Some f → appears_in n f = false).
    { intros j f Hj Hf. apply (Hbefore (S j)); [lia|done]. }
    specialize (Hbefore 0 (name, anonymous, field) ltac:(lia) eq_refl).
    destruct anonymous.
    + destruct (nilValue field) as [[|]| |]; cbn [obind] in Hrun; try done.
      * apply (IH _ _ i Hrun); try done. cbn [results]. by rewrite lookup_insert_ne.
      * destruct (exported name); [|done].
        destruct (FieldMap (viaInterface field)) as [inner0| |] eqn:Hinner0;
          cbn [obind] in Hrun; try done.
        apply (IH _ _ i Hrun); try done. cbn [results]. rewrite lookup_insert_ne by done.
        destruct (countEmbedded_fold st inner0 n) as (-> & _ & _). rewrite Hres.
        rewrite (appears_in_embedded n name field inner0 Hinner0) in Hbefore.
        apply bool_decide_eq_false in Hbefore. by apply eq_None_not_Some.
    + apply (IH _ _ i Hrun); try done. cbn [results]. by rewrite lookup_insert_ne.
Qed.

(** X15: the fields of an embedded record are promoted: a name that the map
    of exactly one embedded record binds, and that is the name of no field of
    the record itself, is bound by the map of the record to the same
    value. *)
Theorem FieldMap_promotes (obj : Value) (tname : string)
    (fields : list (string * bool * Value)) (m : gmap string Value)
    (e : string) (fv : Value) (inner : gmap string Value) (n : string) (v : Value) :
  indirect obj = StructV tname fields →
  FieldMap obj = Ok m →
  (e, true, fv) ∈ fields →
  FieldMap (viaInterface fv) = Ok inner →
  inner !! n = Some v →
  (∀ a w, (n, a, w) ∉ fields) →
  embedded_occurrences n fields = 1 →
  m !! n = Some v.
Proof.
  intros Hind Hmap [i Hi]%list_elem_of_lookup Hinner Hv Hnone Hocc.
  assert (Happ : appears_in n (e, true, fv) = true).
  { rewrite (appears_in_embedded n e fv inner Hinner), Hv. by apply bool_decide_eq_true. }
  rewrite (FieldMap_indirect_struct _ _ _ Hind) in Hmap. unfold structFields in Hmap.
  destruct (forFields _ fields 0 _) as [st| |] eqn:Hrun; cbn [obind] in Hmap; try done.
  assert (Hres : results st !! n = Some v).
  { apply (forFields_promoted n fields 0 _ st i e fv inner v Hrun); try done.
    intros j f Hj Hf. destruct (appears_in n f) eqn:Hf'; [|done].
    pose proof (occurrences_two n fields j i f _ Hj Hf Hi Hf' Happ). lia. }
  pose proof (forFields_counts n _ _ _ _ Hrun) as Hcount.
  cbn [embeddedRefs] in Hcount. rewrite lookup_empty in Hcount. cbn in Hcount.
  rewrite (resolveRef_fold _ _ _ _ _ n Hmap).
  destruct (embeddedRefs st !! n) as [c|]; [|done]. cbn in Hcount.
  destruct (Nat.leb_spec c 1); [done|lia].
Qed.

Lemma FieldMap_promotes_witness :
  ∃ m inner, FieldMap Outer = Ok m ∧ FieldMap (viaInterface E2) = Ok inner
             ∧ inner !! "B" = Some (Str "b") ∧ m !! "B" = Some (Str "b").
Proof.
  do 2 eexists. split; [vm_compute; reflexivity|]. split; [vm_compute; reflexivity|].
  split; [vm_compute; reflexivity|].
  eapply (FieldMap_promotes Outer "Outer" _ _ "E2" E2 _ "B");
    [reflexivity|vm_compute; reflexivity| |vm_compute; reflexivity
    |vm_compute; reflexivity| |vm_compute; reflexivity].
  - do 2 right. left.
  - intros a w Hin. repeat (apply elem_of_cons in Hin as [Hin|Hin]; [discriminate Hin|]).
    by apply elem_of_nil in Hin.
Defined.


(** ** More on [EvalTerms]; [HasPath], [EvalMember], [mapToLower] *)

Lemma lookupMap_unique (fm : gmap string Value) (k : string) :
  is_Some (fm !! k) →
  (∀ k', is_Some (fm !! k') → GoStrings.ToLower k' = GoStrings.ToLower k → k' = k) →
  (lookupMap fm).1 !! GoStrings.ToLower k = Some k.
Proof.
  intros Hk Huniq. destruct (lookupMap_keys fm (GoStrings.ToLower k)) as [Ha Hb].
  destruct Hb as [k' Hk']; [by exists k|].
  destruct (Ha k' Hk') as [Hsome Hlow]. by rewrite (Huniq k' Hsome Hlow) in Hk'.
Qed.



(** [FieldMap] returns a map and no error: it gives a map or panics. *)
Lemma nilValue_no_error (v : Value) (e : error) : nilValue v ≠ Err e.
Proof. unfold nilValue. destruct v as [| | | |[]| | | | |]; try done; by destruct isnil. Qed.

Lemma forFields_no_error (embedded : Value → outcome (gmap string Value))
    (fields : list (string * bool * Value)) (idx : nat) (st : fmaps) (e : error) :
  Forall (λ f, ∀ e, embedded f.2 ≠ Err e) fields →
  forFields embedded fields idx st ≠ Err e.
Proof.
  intros Hall. revert idx st.
  induction Hall as [|[[name anonymous] field] rest Hf _ IH]; intros idx st; [done|].
  cbn [forFields]. destruct anonymous; [|apply IH].
  pose proof (nilValue_no_error field) as Hnil.
  destruct (nilValue field) as [[]|e'|]; cbn [obind]; [apply IH| |by destruct (Hnil e')|done].
  destruct (exported name); [|done]. cbn [snd] in Hf.
  destruct (embedded field) as [inner|e'|]; cbn [obind]; [apply IH|by destruct (Hf e')|done].
Qed.

Lemma resolveRef_no_error (fields : list (string * bool * Value)) (unembedded : gmap string nat)
    (refs : gmap string nat) (res : gmap string Value) (e : error) :
  map_fold (resolveRef fields unembedded) (Ok res) refs ≠ Err e.
Proof.
  revert e. apply (map_fold_weak_ind (λ r _, ∀ e, r ≠ Err e)); [done|].
  intros ref count refs' r _ IH e. unfold resolveRef.
  destruct r as [r|e'|]; cbn [obind]; [|by destruct (IH e')|done].
  destruct (count <=? 1)%nat; [done|]. destruct (unembedded !! ref) as [idx|]; [|done].
  by destruct (fields !! idx) as [[[??]?]|].
Qed.

Lemma FieldMapFrom_no_error : ∀ (val : Value) (entry : bool) (e : error),
  FieldMapFrom entry val ≠ Err e.
Proof.
  fix IH 1. intros [| | | |k tname isnil|tname|v| |v|tname fields] entry e;
    cbn [FieldMapFrom]; try discriminate; try (destruct entry; discriminate).
  - destruct entry; [|done]. pose proof (nilValue_no_error (Opaque k tname isnil)) as Hnil.
    destruct (nilValue _) as [[]|e'|]; cbn [obind]; try done. by destruct (Hnil e').
  - apply (IH v).
  - apply (IH v).
  - match goal with |- context [forFields ?f fields 0 ?st] =>
      assert (Hall : Forall (λ f', ∀ e, f f'.2 ≠ Err e) fields);
      [|pose proof (forFields_no_error f fields 0 st) as Hno;
        destruct (forFields f fields 0 st) as [st'|e'|]; cbn [obind];
        [apply resolveRef_no_error|by destruct (Hno e' Hall)|done]]
    end.
    clear e entry tname. induction fields as [|[[name anonymous] field] rest IHf];
      constructor; [|apply IHf].
    cbn [snd]. intros e. pose proof (IH field true e) as IHfield.
    destruct field as [| | | | | | | |d|]; try exact IHfield; [done|apply (IH d)].
Qed.

Lemma FieldMap_no_error (obj : Value) (e : error) : FieldMap obj ≠ Err e.
Proof. apply FieldMapFrom_no_error. Qed.



Lemma lower_byte_idemp (c : ascii) :
  GoStrings.lower_byte (GoStrings.lower_byte c) = GoStrings.lower_byte c.
Proof. by destruct c as [[] [] [] [] [] [] [] []]. Qed.

Lemma ToLower_idemp (s : string) : GoStrings.ToLower (GoStrings.ToLower s) = GoStrings.ToLower s.
Proof.
  induction s as [|c s IH]; [done|]. cbn [GoStrings.ToLower].
  by rewrite lower_byte_idemp, IH.
Qed.

Lemma mapToLower_fold (seen todo : list string) :
  fold_left (λ strs idx,
               match strs !! idx with
               | Some str => <[idx := GoStrings.ToLower str]> strs
               | None => strs
               end)
            (seq (length seen) (length todo)) (seen ++ todo)
  = seen ++ (GoStrings.ToLower <$> todo).
Proof.
  revert seen. induction todo as [|x todo IH]; intros seen; [done|].
  cbn [length seq fold_left fmap list_fmap].
  rewrite list_lookup_middle by done. rewrite insert_app_r_alt, Nat.sub_diag by lia.
  cbn [insert list_insert].
  rewrite (cons_middle (GoStrings.ToLower x)), !(assoc_L (++)).
  replace (S (length seen)) with (length (seen ++ [GoStrings.ToLower x]))
    by (rewrite length_app; simpl; lia).
  by rewrite IH, <-(assoc_L (++)).
Qed.

Lemma mapToLower_fmap (strs : list string) : mapToLower strs = GoStrings.ToLower <$> strs.
Proof. apply (mapToLower_fold [] strs). Qed.

Lemma EvalTerms_lowered (obj : Value) (terms : list string) :
  EvalTerms obj (GoStrings.ToLower <$> terms) = EvalTerms obj terms.
Proof.
  revert obj. induction terms as [|t terms IH]; intros obj; [done|].
  cbn [fmap list_fmap EvalTerms]. rewrite ToLower_idemp.
  destruct (FieldMap obj) as [fm| |]; cbn [obind]; try done.
  destruct (lookupMap fm) as [keys fieldMap]. destruct (keys !! _) as [key|]; [|done].
  destruct (fieldMap !! key) as [val|]; [|done].
  destruct (_ && _); [done|]. destruct (exported key); [apply IH|done].
Qed.


(** ** More on the field-map cache: [fieldMap], [LookupCanonicalFieldName] *)

Lemma lowered_alloc (st : store) : lowered st → lowered (alloc st).2.
Proof.
  intros Hst m [Hm|Hm%list_elem_of_singleton]%elem_of_app k v Hk; [by eapply Hst|].
  subst m. by rewrite lookup_empty in Hk.
Qed.

Lemma lowered_assign (st : store) (m : nat) (name : string) :
  lowered st → lowered (assign st m (GoStrings.ToLower name) name).
Proof.
  intros Hst x Hx k v Hk. cbn [assign heap] in Hx.
  apply list_elem_of_lookup in Hx as [i Hi].
  destruct (decide (i = m)) as [->|Hne].
  - destruct (heap st !! m) as [old|] eqn:Hold.
    + rewrite list_lookup_insert_eq in Hi by (by eapply lookup_lt_Some).
      injection Hi as <-. unfold load in Hk. rewrite Hold in Hk. cbn [default] in Hk.
      apply lookup_insert_Some in Hk as [[<- <-]|[_ Hk]]; [done|].
      eapply Hst; [|done]. by eapply list_elem_of_lookup_2.
    + rewrite list_insert_ge in Hi by (by apply lookup_ge_None).
      by rewrite Hold in Hi.
  - rewrite list_lookup_insert_ne in Hi by done.
    eapply Hst; [|done]. by eapply list_elem_of_lookup_2.
Qed.

(** Where the loop over the fields ends well on every embedded field, it
    ends well, and keeps the heap lower-keyed. *)
Lemma forTypeFields_ok
    (embeddedType : GoType → nat → gset string → store → outcome (nat * gset string * store))
    (fields : list (string * bool * GoType)) (m : nat) (conflicts : gset string) (st : store) :
  Forall (λ f, ∀ m c st, ∃ r, embeddedType f.2 m c st = Ok r ∧ (lowered st → lowered r.2)) fields →
  ∃ r, forTypeFields embeddedType fields m conflicts st = Ok r ∧ (lowered st → lowered r.2).
Proof.
  intros Hall. revert m conflicts st.
  induction Hall as [|[[name anonymous] ftype] rest Hf _ IH]; intros m conflicts st.
  - by eexists.
  - cbn [forTypeFields]. cbn [snd] in Hf. destruct anonymous.
    + match goal with |- context [embeddedType ftype m conflicts ?s] =>
        destruct (Hf m conflicts s) as ([[m' c'] st'] & -> & Hlow);
        assert (Hs : lowered st → lowered s) by
          (destruct (load st m !! _); [done|apply lowered_assign])
      end.
      cbn [obind]. destruct (IH m' c' st') as (r & -> & Hr).
      exists r. split; [done|]. intros Hst. apply Hr, Hlow, Hs, Hst.
    + destruct (load st m !! _); [apply IH|]. case_bool_decide; [apply IH|].
      destruct (IH m conflicts (assign st m (GoStrings.ToLower name) name)) as (r & -> & Hr).
      exists r. split; [done|]. intros Hst. by apply Hr, lowered_assign.
Qed.

(** [addFieldsToMap] on a struct type, and the step for an embedded field on
    any type, return a map and no error, do not panic, and keep the heap
    lower-keyed. *)
Lemma addFieldsFrom_ok : ∀ (t : GoType) (embedded : bool) (m : nat) (conflicts : gset string)
    (st : store),
  embedded = true ∨ (∃ name fields, t = TStruct name fields) →
  ∃ r, addFieldsFrom embedded t m conflicts st = Ok r ∧ (lowered st → lowered r.2).
Proof.
  fix IH 1. intros [k n|elem|n fs] embedded m conflicts st Hcase.
  - clear IH. destruct Hcase as [->|(? & ? & [=])]. by eexists.
  - destruct Hcase as [->|(? & ? & [=])]. cbn [addFieldsFrom]. apply (IH elem). by left.
  - cbn [addFieldsFrom]. destruct (cacheGet st _); [clear IH; by eexists|].
    assert (Hall : Forall (λ f, ∀ m c st, ∃ r,
                      addFieldsFrom true f.2 m c st = Ok r ∧ (lowered st → lowered r.2)) fs).
    { clear Hcase m conflicts st. induction fs as [|[[name anonymous] ftype] rest IHf];
        constructor; [|apply IHf].
      cbn [snd]. intros m c st. apply (IH ftype). by left. }
    clear IH.
    destruct (forTypeFields_ok (addFieldsFrom true) fs m conflicts st Hall)
      as ([[m' c'] st'] & -> & Hlow).
    cbn [obind]. eexists. split; [done|]. intros Hst. apply Hlow, Hst.
Qed.

Lemma addFieldsFrom_cached (t : GoType) (m cached : nat) (conflicts : gset string) (st : store) :
  cacheGet st t = Some cached →
  addFieldsFrom false t m conflicts st = Ok (cached, conflicts, st).
Proof. intros Hget. destruct t; cbn [addFieldsFrom]; by rewrite Hget. Qed.

Lemma addFieldsFrom_puts (t : GoType) (m m' : nat) (conflicts c' : gset string) (st st' : store) :
  addFieldsFrom false t m conflicts st = Ok (m', c', st') →
  cacheGet st' t = Some m'.
Proof.
  destruct t as [k n|elem|n fs]; cbn [addFieldsFrom];
    destruct (cacheGet st _) eqn:Hget; intros Hrun; simplify_eq; try done.
  destruct (forTypeFields _ _ _ _ _) as [[[m2 c2] st2]| |]; simplify_eq/=.
  by rewrite cacheGet_cachePut, type_eqb_refl.
Qed.

Lemma fieldMap_struct (t : GoType) (st : store) :
  TypeKind (interfaceToConcreteType t) = KStruct →
  fieldMap t st
  = ('(m, _, st) ←? addFieldsToMap (length (heap st)) ∅ (interfaceToConcreteType t) (alloc st).2;
     Ok (m, st)).
Proof. intros Hkind. unfold fieldMap. cbn [alloc]. by rewrite bool_decide_eq_true_2. Qed.

Lemma fieldMap_not_struct (t : GoType) (st : store) :
  TypeKind (interfaceToConcreteType t) ≠ KStruct →
  fieldMap t st = Err (ErrNonStructType "*reflect.rtype").
Proof. intros Hkind. unfold fieldMap. cbn [alloc]. by rewrite bool_decide_eq_false_2. Qed.

Lemma fieldMap_ok (t : GoType) (name : string) (fields : list (string * bool * GoType))
    (st : store) :
  interfaceToConcreteType t = TStruct name fields →
  ∃ m st', fieldMap t st = Ok (m, st') ∧ (lowered st → lowered st').
Proof.
  intros Ht. rewrite fieldMap_struct by (by rewrite Ht). unfold addFieldsToMap.
  destruct (addFieldsFrom_ok (interfaceToConcreteType t) false (length (heap st)) ∅ (alloc st).2)
    as ([[m c] st'] & -> & Hlow); [right; eauto|].
  exists m, st'. split; [done|]. intros Hst. by apply Hlow, lowered_alloc.
Qed.

(** X20: the cache is hit by what [fieldMap] has computed: after
    [fieldMap] returned a map for a type, the cache holds that very map for
    the type with its pointers stripped, and a further call for the type, or
    for any pointer to it, returns that same map, having done nothing but
    make the empty map it starts with. *)
Theorem fieldMap_cache_hit (t u : GoType) (st st' : store) (m : nat) :
  fieldMap t st = Ok (m, st') →
  interfaceToConcreteType u = interfaceToConcreteType t →
  cacheGet st' (interfaceToConcreteType t) = Some m
  ∧ fieldMap u st' = Ok (m, (alloc st').2).
Proof.
  intros Hrun Hu. unfold fieldMap in Hrun. cbn [alloc] in Hrun.
  case_bool_decide as Hkind; [|done]. cbn [negb] in Hrun. unfold addFieldsToMap in Hrun.
  destruct (addFieldsFrom _ _ _ _ _) as [[[m' c'] st2]| |] eqn:Hadd; simplify_eq/=.
  pose proof (addFieldsFrom_puts _ _ _ _ _ _ _ Hadd) as Hget. split; [done|].
  rewrite fieldMap_struct by (by rewrite Hu). unfold addFieldsToMap. rewrite Hu.
  by rewrite (addFieldsFrom_cached _ _ m).
Qed.

Lemma fieldMap_cache_hit_witness :
  ∃ m st', fieldMap typeOuter makeCache = Ok (m, st')
           ∧ fieldMap (TPtr (TPtr typeOuter)) st' = Ok (m, (alloc st').2).
Proof.
  assert (Hrun : ∃ m st', fieldMap typeOuter makeCache = Ok (m, st'))
    by (do 2 eexists; vm_compute; reflexivity).
  destruct Hrun as (m & st' & Hrun). exists m, st'. split; [done|].
  apply (fieldMap_cache_hit typeOuter (TPtr (TPtr typeOuter)) makeCache st' m Hrun eq_refl).
Defined.



Lemma load_alloc (st : store) : load (alloc st).2 (length (heap st)) = ∅.
Proof. unfold load. cbn [alloc snd heap]. by rewrite list_lookup_middle. Qed.

Lemma load_assign (st : store) (a : nat) (k v k' : string) :
  a < length (heap st) →
  load (assign st a k v) a !! k' = if decide (k' = k) then Some v else load st a !! k'.
Proof.
  intros Ha. unfold load at 1. cbn [assign heap].
  rewrite list_lookup_insert_eq by done. cbn [default id].
  destruct (decide (k' = k)) as [->|Hne]; [by rewrite lookup_insert_eq|].
  by rewrite lookup_insert_ne.
Qed.

Lemma first_named_cons (k name : string) (anonymous : bool) (ftype : GoType)
    (rest : list (string * bool * GoType)) :
  first_named k ((name, anonymous, ftype) :: rest)
  = if decide (k = GoStrings.ToLower name) then Some name else first_named k rest.
Proof.
  unfold first_named. cbn [List.find fst].
  destruct (decide (k = GoStrings.ToLower name)) as [->|Hne].
  - by rewrite String.eqb_refl.
  - destruct (String.eqb_spec (GoStrings.ToLower name) k) as [Heq|_]; [by destruct Hne|done].
Qed.

Lemma first_named_is_Some (k : string) (fields : list (string * bool * GoType)) :
  is_Some (first_named k fields) ↔ ∃ f, f ∈ fields ∧ k = GoStrings.ToLower f.1.1.
Proof.
  induction fields as [|[[name anonymous] ftype] rest IH].
  - split; [by intros [? [=]]|]. intros (f & Hf & _). by apply elem_of_nil in Hf.
  - rewrite first_named_cons. destruct (decide (k = GoStrings.ToLower name)) as [->|Hne].
    + split; [|by eexists]. intros _. eexists. split; [apply elem_of_cons; by left|done].
    + rewrite IH. split.
      * intros (f & Hf & ->). exists f. split; [apply elem_of_cons; by right|done].
      * intros (f & [->|Hf]%elem_of_cons & ->); [done|]. by exists f.
Qed.

(** The loop of [addFieldsToMap] over fields none of which is embedded: a
    lower-case name the map lacks, and which is not among the conflicts, gets
    the first field of that name. *)
Lemma forTypeFields_flat
    (embeddedType : GoType → nat → gset string → store → outcome (nat * gset string * store))
    (fields : list (string * bool * GoType)) (a : nat) (conflicts : gset string) (st : store) :
  a < length (heap st) →
  Forall (λ f, f.1.2 = false) fields →
  ∃ c' st', forTypeFields embeddedType fields a conflicts st = Ok (a, c', st')
    ∧ vals st' = vals st ∧ length (heap st') = length (heap st)
    ∧ ∀ k, load st' a !! k
           = match load st a !! k with
             | Some v => Some v
             | None => if decide (k ∈ conflicts) then None else first_named k fields
             end.
Proof.
  intros Ha Hflat. revert conflicts st Ha.
  induction Hflat as [|[[name anonymous] ftype] rest Hf _ IH]; intros conflicts st Ha.
  - exists conflicts, st. repeat split. intros k. destruct (load st a !! k); [done|].
    by destruct (decide _).
  - cbn [fst snd] in Hf. subst anonymous. cbn [forTypeFields].
    destruct (load st a !! GoStrings.ToLower name) as [old|] eqn:Hold.
    + destruct (IH ({[GoStrings.ToLower name]} ∪ conflicts) st Ha) as (c' & st' & -> & ? & ? & Hk).
      exists c', st'. repeat split; try done. intros k. rewrite Hk, first_named_cons.
      destruct (load st a !! k) eqn:Hlk; [done|].
      destruct (decide (k = GoStrings.ToLower name)) as [->|Hne]; [congruence|].
      repeat destruct (decide _); try done; set_solver.
    + case_bool_decide as Hc.
      * destruct (IH conflicts st Ha) as (c' & st' & -> & ? & ? & Hk).
        exists c', st'. repeat split; try done. intros k. rewrite Hk, first_named_cons.
        destruct (load st a !! k) eqn:Hlk; [done|].
        destruct (decide (k = GoStrings.ToLower name)) as [->|Hne]; [|done].
        by destruct (decide _).
      * destruct (IH conflicts (assign st a (GoStrings.ToLower name) name))
          as (c' & st' & -> & Hvals & Hlen & Hk).
        { cbn [assign heap]. by rewrite length_insert. }
        exists c', st'. split; [done|]. split; [done|].
        split; [by rewrite Hlen; cbn [assign heap]; rewrite length_insert|].
        intros k. rewrite Hk, load_assign, first_named_cons by done.
        destruct (decide (k = GoStrings.ToLower name)) as [->|Hne].
        -- by rewrite Hold, decide_False.
        -- done.
Qed.



(** ** More on [user.Prepare] *)

(** X23: the checks of [Prepare] come in a fixed order, and a failed check
    leaves the preparer as it was: a [UID] of 2^32-1 gives the error on the
    uid whatever the other fields are; otherwise a [GID] of 2^32-1 gives the
    error on the gid; otherwise [MoveDir] without a [HomeDir] gives the error
    on the home directory.  When [Prepare] succeeds it changes no field of
    the preparer but [State]. *)
Theorem Prepare_first_failed_check (NewUser : user.User) (p : user.Preparer) :
  (user.UID p = Some user.MaxUint32 →
   user.Prepare NewUser p = (p, Err ErrUIDOutOfRange))
  ∧ (user.UID p ≠ Some user.MaxUint32 → user.GID p = Some user.MaxUint32 →
     user.Prepare NewUser p = (p, Err ErrGIDOutOfRange))
  ∧ (user.UID p ≠ Some user.MaxUint32 → user.GID p ≠ Some user.MaxUint32 →
     user.MoveDir p = true → user.HomeDir p = EmptyString →
     user.Prepare NewUser p = (p, Err ErrHomeDirRequired))
  ∧ (let p' := (user.Prepare NewUser p).1 in
     user.Username p' = user.Username p ∧ user.NewUsername p' = user.NewUsername p
     ∧ user.UID p' = user.UID p ∧ user.GroupName p' = user.GroupName p
     ∧ user.GID p' = user.GID p ∧ user.Name p' = user.Name p
     ∧ user.HomeDir p' = user.HomeDir p ∧ user.MoveDir p' = user.MoveDir p).
Proof.
  unfold user.Prepare.
  destruct p as [un nun uid gn gid nm hd md st]; cbn [user.UID user.GID user.MoveDir
    user.HomeDir user.State user.Username user.NewUsername user.GroupName user.Name].
  assert (Huid : ∀ o : option N,
            (match o with Some u => (u =? user.MaxUint32)%N | None => false end) = true
            ↔ o = Some user.MaxUint32).
  { intros [u|]; [|done]. rewrite N.eqb_eq. split; congruence. }
  split; [|split; [|split]].
  - intros ->. by rewrite N.eqb_refl.
  - intros Hu ->. rewrite N.eqb_refl. apply (not_iff_compat (Huid uid)) in Hu.
    apply not_true_is_false in Hu. by rewrite Hu.
  - intros Hu Hg -> ->. apply (not_iff_compat (Huid uid)), not_true_is_false in Hu.
    apply (not_iff_compat (Huid gid)), not_true_is_false in Hg. by rewrite Hu, Hg.
  - repeat match goal with |- context [if ?b then _ else _] => destruct b end; done.
Qed.

Lemma Prepare_first_failed_check_witness :
  let NewUser := user.mkUser EmptyString EmptyString EmptyString EmptyString EmptyString
                   EmptyString EmptyString false EmptyString in
  let p := user.mkPreparer "u" EmptyString (Some user.MaxUint32) EmptyString
             (Some user.MaxUint32) EmptyString EmptyString true EmptyString in
  user.Prepare NewUser p = (p, Err ErrUIDOutOfRange).
Proof.
  intros NewUser p. by apply (proj1 (Prepare_first_failed_check NewUser p)).
Defined.

(** X24: preparing twice is preparing once: run on the preparer a first
    [Prepare] has left, [Prepare] leaves that preparer as it is and returns
    what the first one returned, the same task or the same error. *)
Theorem Prepare_idempotent (NewUser : user.User) (p : user.Preparer) :
  user.Prepare NewUser (user.Prepare NewUser p).1 = user.Prepare NewUser p.
Proof.
  destruct (user.Prepare NewUser p) as [p' r] eqn:Hrun. cbn [fst].
  unfold user.Prepare in Hrun.
  destruct p as [un nun uid gn gid nm hd md st]; cbn [user.UID user.GID user.MoveDir
    user.HomeDir user.State user.Username user.NewUsername user.GroupName user.Name] in Hrun.
  destruct (match uid with Some u => _ | None => false end) eqn:Hu.
  { injection Hrun as <- <-. unfold user.Prepare. cbn [user.UID]. by rewrite Hu. }
  destruct (match gid with Some u => _ | None => false end) eqn:Hg.
  { injection Hrun as <- <-. unfold user.Prepare. cbn [user.UID user.GID]. by rewrite Hu, Hg. }
  destruct (md && String.eqb hd EmptyString) eqn:Hm.
  { injection Hrun as <- <-. unfold user.Prepare.
    cbn [user.UID user.GID user.MoveDir user.HomeDir]. by rewrite Hu, Hg, Hm. }
  destruct (String.eqb st EmptyString) eqn:Hs; injection Hrun as <- <-; unfold user.Prepare;
    cbn [user.UID user.GID user.MoveDir user.HomeDir user.State user.Username
         user.NewUsername user.GroupName user.Name];
    rewrite ?Hu, ?Hg, ?Hm, ?Hs; reflexivity.
Qed.
